(** * Freehand-stroke shape classifier (utils/geometry.ts)

    A shallow embedding of the classifier of the drawing surface:
    [getDistance], [getPathLength], [perpendicularDistance],
    [ramerDouglasPeucker] and [analyzeShape].

    Numbers are JavaScript numbers, that is IEEE 754 binary64 values; they
    are modelled by Rocq's primitive floats, whose operations are specified
    against [SpecFloat] by the axioms of [FloatAxioms].  [Math.sqrt] is the
    correctly rounded square root, and [Math.pow(v, 2)] is [v * v], as the
    engines compute it (the [pow] of fdlibm returns [x * x] for the
    exponent 2).

    Arrays are lists.  A read out of range yields [undefined] in JavaScript;
    every indexed read of the source is passed at once to a function that
    dereferences it, so such a read is modelled by the outcome [TypeError].
    The recursion of the simplifier is not structural: it is given fuel, and
    running out of fuel is the outcome [OutOfFuel].  The call stack is not
    bounded.

    The two functions are modelled a second time over a store of mutable
    arrays ([Module Store]), to state what a call does to its input. *)

From Stdlib Require Import Floats ZArith List Bool Lia PeanoNat Uint63.
Import ListNotations.

Set Warnings "-inexact-float".

(** ** Outcomes of a call *)

Inductive outcome (A : Type) : Type :=
| Returns (a : A)
| TypeError
| OutOfFuel.

Arguments Returns {A} a.
Arguments TypeError {A}.
Arguments OutOfFuel {A}.

Definition bind {A B : Type} (c : outcome A) (k : A -> outcome B) : outcome B :=
  match c with
  | Returns a => k a
  | TypeError => TypeError
  | OutOfFuel => OutOfFuel
  end.

Notation "x <- c ;; k" := (bind c (fun x => k))
  (at level 61, c at next level, right associativity).

(** ** Data model *)

Record Point : Set := mkPoint { x : float; y : float }.

Inductive ShapeType : Set := circle | rect | triangle | line | unknown.

(** The [data] field is [any] in the source; these are the five shapes of
    object that [analyzeShape] stores in it. *)
Inductive ShapeData : Set :=
| DataNull
| DataLine (start end_ : Point)
| DataRect (left top width height : float)
| DataTriangle (centerX centerY width height : float)
| DataCircle (centerX centerY radius : float).

Record ShapeAnalysis : Set :=
  mkShape { type : ShapeType; score : float; data : ShapeData }.

(** ** Array primitives *)

(** [points[i]] followed by a dereference. *)
Definition get (points : list Point) (i : nat) : outcome Point :=
  match nth_error points i with
  | Some p => Returns p
  | None => TypeError
  end.

(** [a.slice(from, to)] for [0 <= from] and [0 <= to]; the bounds are
    clamped to the array.  The one call of the source whose upper bound can
    be negative is [a.slice(0, a.length - 1)] on an empty [a], which is empty
    as [slice 0 (0 - 1) []] is. *)
Definition slice {A : Type} (from to : nat) (a : list A) : list A :=
  firstn (to - from) (skipn from a).

(** [a.length] as a number (exact below [2^53]; an array has fewer than
    [2^32] elements). *)
Definition lengthF {A : Type} (a : list A) : float :=
  PrimFloat.of_uint63 (Uint63.of_Z (Z.of_nat (length a))).

(** [Math.max(a, b)]: NaN if either is NaN, and [+0] above [-0]. *)
Definition Math_max (a b : float) : float :=
  if PrimFloat.is_nan a || PrimFloat.is_nan b then PrimFloat.nan
  else if PrimFloat.ltb a b then b
  else if PrimFloat.ltb b a then a
  else if PrimFloat.get_sign a then b else a.

(** ** Helper functions *)

Open Scope float_scope.

Definition getDistance (p1 p2 : Point) : float :=
  PrimFloat.sqrt ((x p2 - x p1) * (x p2 - x p1) + (y p2 - y p1) * (y p2 - y p1)).

(** The loop of [getPathLength] from index [i] on, [prev] being
    [points[i - 1]] and [rest] the points from [points[i]]. *)
Fixpoint getPathLength_loop (prev : Point) (rest : list Point) (len : float) : float :=
  match rest with
  | [] => len
  | p :: rest' => getPathLength_loop p rest' (len + getDistance prev p)
  end.

Definition getPathLength (points : list Point) : float :=
  match points with
  | [] => 0
  | p :: rest => getPathLength_loop p rest 0
  end.

(** ** Ramer-Douglas-Peucker *)

Definition perpendicularDistance (point lineStart lineEnd : Point) : float :=
  let dx := x lineEnd - x lineStart in
  let dy := y lineEnd - y lineStart in
  let mag := PrimFloat.sqrt (dx * dx + dy * dy) in
  let dx' := if PrimFloat.ltb 0 mag then dx / mag else dx in
  let dy' := if PrimFloat.ltb 0 mag then dy / mag else dy in
  let pvx := x point - x lineStart in
  let pvy := y point - y lineStart in
  let pvdot := dx' * pvx + dy' * pvy in
  let dsx := pvx - pvdot * dx' in
  let dsy := pvy - pvdot * dy' in
  PrimFloat.sqrt (dsx * dsx + dsy * dsy).

(** The scan [for (let i = 1; i < end; i++)] from index [i] on: [mid] holds
    [points[i], ..., points[end - 1]]; the state is [(dmax, index)]. *)
Fixpoint rdp_scan (first last : Point) (mid : list Point) (i : nat)
    (dmax : float) (index : nat) : float * nat :=
  match mid with
  | [] => (dmax, index)
  | p :: mid' =>
      let d := perpendicularDistance p first last in
      if PrimFloat.ltb dmax d
      then rdp_scan first last mid' (S i) d i
      else rdp_scan first last mid' (S i) dmax index
  end.

(** [rdp fuel points epsilon]: the recursive function, each recursive call
    spending one unit of fuel. *)
Fixpoint rdp (fuel : nat) (points : list Point) (epsilon : float)
    : outcome (list Point) :=
  if (length points <? 3)%nat then Returns points else
  match fuel with
  | O => OutOfFuel
  | S fuel' =>
      let end_ := (length points - 1)%nat in
      first <- get points 0 ;;
      last <- get points end_ ;;
      let '(dmax, index) := rdp_scan first last (slice 1 end_ points) 1 0 0%nat in
      if PrimFloat.ltb epsilon dmax then
        recResults1 <- rdp fuel' (slice 0 (index + 1) points) epsilon ;;
        recResults2 <- rdp fuel' (slice index (end_ + 1) points) epsilon ;;
        Returns (slice 0 (length recResults1 - 1) recResults1 ++ recResults2)
      else Returns [first; last]
  end.

(** The fuel [length points] is enough whenever any fuel is (see
    [rdp_fuel_adequate]): the outcome [OutOfFuel] of this function stands
    for a recursion that does not end. *)
Definition ramerDouglasPeucker (points : list Point) (epsilon : float)
    : outcome (list Point) :=
  rdp (length points) points epsilon.

(** ** The stages of [analyzeShape] *)

Definition linearity (originalPoints : list Point) : outcome float :=
  start <- get originalPoints 0 ;;
  end_ <- get originalPoints (length originalPoints - 1) ;;
  let totalLength := getPathLength originalPoints in
  let displacement := getDistance start end_ in
  Returns (displacement / totalLength).

Record BBox : Set := mkBBox { minX : float; maxX : float; minY : float; maxY : float }.

Definition bbox_step (b : BBox) (p : Point) : BBox :=
  let minX' := if PrimFloat.ltb (x p) (minX b) then x p else minX b in
  let maxX' := if PrimFloat.ltb (maxX b) (x p) then x p else maxX b in
  let minY' := if PrimFloat.ltb (y p) (minY b) then y p else minY b in
  let maxY' := if PrimFloat.ltb (maxY b) (y p) then y p else maxY b in
  mkBBox minX' maxX' minY' maxY'.

Definition boundingBox (originalPoints : list Point) : BBox :=
  fold_left bbox_step originalPoints
    (mkBBox PrimFloat.infinity PrimFloat.neg_infinity
            PrimFloat.infinity PrimFloat.neg_infinity).

Definition width (originalPoints : list Point) : float :=
  maxX (boundingBox originalPoints) - minX (boundingBox originalPoints).

Definition height (originalPoints : list Point) : float :=
  maxY (boundingBox originalPoints) - minY (boundingBox originalPoints).

Definition diag (originalPoints : list Point) : float :=
  PrimFloat.sqrt (width originalPoints * width originalPoints
                  + height originalPoints * height originalPoints).

Definition centerX (originalPoints : list Point) : float :=
  minX (boundingBox originalPoints) + width originalPoints / 2.

Definition centerY (originalPoints : list Point) : float :=
  minY (boundingBox originalPoints) + height originalPoints / 2.

(** The shoelace loop from index [i] on: [rest] holds the points from
    [points[i]], and [points[(i + 1) % length]] is the next point of [rest]
    or, at the last index, [first]. *)
Fixpoint shoelace_loop (first : Point) (rest : list Point) (area : float) : float :=
  match rest with
  | [] => area
  | pi :: rest' =>
      let pj := match rest' with [] => first | q :: _ => q end in
      shoelace_loop first rest' (area + x pi * y pj - x pj * y pi)
  end.

Definition polygonArea (originalPoints : list Point) : float :=
  match originalPoints with
  | [] => PrimFloat.abs 0 / 2
  | first :: _ => PrimFloat.abs (shoelace_loop first originalPoints 0) / 2
  end.

Definition fillRatio (originalPoints : list Point) : float :=
  polygonArea originalPoints / (width originalPoints * height originalPoints).

Definition epsilonOf (originalPoints : list Point) : float :=
  Math_max 5 (diag originalPoints * 0.04).

(** [vertices] after the closed-loop merge, from [simplified]. *)
Definition mergeClosed (originalPoints simplified : list Point)
    : outcome (list Point) :=
  let d := diag originalPoints in
  let epsilon := epsilonOf originalPoints in
  s0 <- get simplified 0 ;;
  sl <- get simplified (length simplified - 1) ;;
  start <- get originalPoints 0 ;;
  end_ <- get originalPoints (length originalPoints - 1) ;;
  let isClosed := PrimFloat.ltb (getDistance s0 sl) (d * 0.15)
                  || PrimFloat.ltb (getDistance start end_) (d * 0.15) in
  let vertices := simplified in
  if isClosed && (3 <? length vertices)%nat then
    v0 <- get vertices 0 ;;
    vl <- get vertices (length vertices - 1) ;;
    if PrimFloat.ltb (getDistance v0 vl) (epsilon * 2)
    then Returns (removelast vertices)
    else Returns vertices
  else Returns vertices.

Definition vertices (originalPoints : list Point) : outcome (list Point) :=
  simplified <- ramerDouglasPeucker originalPoints (epsilonOf originalPoints) ;;
  mergeClosed originalPoints simplified.

Definition center (originalPoints : list Point) : Point :=
  mkPoint (centerX originalPoints) (centerY originalPoints).

Definition totalRadius (originalPoints : list Point) : float :=
  fold_left (fun acc p => acc + getDistance p (center originalPoints))
            originalPoints 0.

Definition avgRadius (originalPoints : list Point) : float :=
  totalRadius originalPoints / lengthF originalPoints.

Definition radiusVariance (originalPoints : list Point) : float :=
  fold_left (fun acc p =>
               let r := getDistance p (center originalPoints) in
               acc + (r - avgRadius originalPoints) * (r - avgRadius originalPoints))
            originalPoints 0
  / lengthF originalPoints.

Definition normalizedVariance (originalPoints : list Point) : float :=
  radiusVariance originalPoints
  / (avgRadius originalPoints * avgRadius originalPoints).

(** ** The main analysis function *)

Definition rectData (originalPoints : list Point) : ShapeData :=
  DataRect (minX (boundingBox originalPoints)) (minY (boundingBox originalPoints))
           (width originalPoints) (height originalPoints).

Definition triangleData (originalPoints : list Point) : ShapeData :=
  DataTriangle (centerX originalPoints) (centerY originalPoints)
               (width originalPoints) (height originalPoints).

Definition circleData (originalPoints : list Point) : ShapeData :=
  DataCircle (centerX originalPoints) (centerY originalPoints)
             (avgRadius originalPoints).

Definition analyzeShape (originalPoints : list Point) : outcome ShapeAnalysis :=
  if (length originalPoints <? 10)%nat then Returns (mkShape unknown 0 DataNull) else
  start <- get originalPoints 0 ;;
  end_ <- get originalPoints (length originalPoints - 1) ;;
  lin <- linearity originalPoints ;;
  if PrimFloat.ltb 0.94 lin then Returns (mkShape line lin (DataLine start end_)) else
  let fill := fillRatio originalPoints in
  if PrimFloat.ltb 0.80 fill then Returns (mkShape rect fill (rectData originalPoints)) else
  vs <- vertices originalPoints ;;
  let vCount := length vs in
  if (vCount =? 3)%nat then Returns (mkShape triangle 0.9 (triangleData originalPoints)) else
  if (4 <=? vCount)%nat && (vCount <=? 6)%nat
  then Returns (mkShape rect 0.9 (rectData originalPoints)) else
  let nv := normalizedVariance originalPoints in
  if PrimFloat.ltb nv 0.05 && PrimFloat.ltb 0.6 fill
  then Returns (mkShape circle (1 - nv) (circleData originalPoints)) else
  if PrimFloat.ltb 0.35 fill && PrimFloat.ltb fill 0.65
  then Returns (mkShape triangle 0.7 (triangleData originalPoints)) else
  Returns (mkShape unknown 0 DataNull).

(** ** The classifier over a store of arrays

    JavaScript arrays are mutable objects passed by reference.  To state
    that the classifier leaves its input alone, the same two functions are
    modelled a second time over a store: an array is an address, [slice],
    [concat], the spread [[...a]] and the array literal allocate a new
    array, [pop] writes to the array it is called on, and
    [ramerDouglasPeucker] returns the very array it was given when that has
    fewer than 3 points.  Points are never assigned to in the source and
    stay values. *)
Module Store.

Definition addr := nat.

(** The arrays allocated so far; an address is a position. *)
Definition heap := list (list Point).

Definition prog (A : Type) : Type := heap -> outcome (A * heap).

Definition ret {A : Type} (a : A) : prog A := fun h => Returns (a, h).

Definition fail {A : Type} (e : outcome A) : prog A :=
  fun h => match e with
           | Returns a => Returns (a, h)
           | TypeError => TypeError
           | OutOfFuel => OutOfFuel
           end.

Definition bind {A B : Type} (c : prog A) (k : A -> prog B) : prog B :=
  fun h => match c h with
           | Returns (a, h') => k a h'
           | TypeError => TypeError
           | OutOfFuel => OutOfFuel
           end.

Notation "x <~ c ;; k" := (bind c (fun x => k))
  (at level 61, c at next level, right associativity).

Definition load (a : addr) : prog (list Point) :=
  fun h => match nth_error h a with
           | Some v => Returns (v, h)
           | None => TypeError
           end.

Definition new (v : list Point) : prog addr :=
  fun h => Returns (length h, h ++ [v]).

Definition store (a : addr) (v : list Point) : prog unit :=
  fun h => if (a <? length h)%nat
           then Returns (tt, firstn a h ++ v :: skipn (S a) h)
           else TypeError.

(** [a.length], [a[i]] then a dereference, [a.slice(from, to)],
    [a.concat(b)], [[...a]] and [a.pop()]. *)
Definition lengthA (a : addr) : prog nat := v <~ load a ;; ret (length v).

Definition getA (a : addr) (i : nat) : prog Point := v <~ load a ;; fail (get v i).

Definition sliceA (a : addr) (from to : nat) : prog addr :=
  v <~ load a ;; new (slice from to v).

Definition concatA (a b : addr) : prog addr :=
  va <~ load a ;; vb <~ load b ;; new (va ++ vb).

Definition spreadA (a : addr) : prog addr := v <~ load a ;; new v.

Definition popA (a : addr) : prog unit := v <~ load a ;; store a (removelast v).

Fixpoint rdp (fuel : nat) (points : addr) (epsilon : float) : prog addr :=
  n <~ lengthA points ;;
  if (n <? 3)%nat then ret points else
  match fuel with
  | O => fail OutOfFuel
  | S fuel' =>
      let end_ := (n - 1)%nat in
      first <~ getA points 0 ;;
      last <~ getA points end_ ;;
      v <~ load points ;;
      let '(dmax, index) := rdp_scan first last (slice 1 end_ v) 1 0 0%nat in
      if PrimFloat.ltb epsilon dmax then
        s1 <~ sliceA points 0 (index + 1) ;;
        recResults1 <~ rdp fuel' s1 epsilon ;;
        s2 <~ sliceA points index (end_ + 1) ;;
        recResults2 <~ rdp fuel' s2 epsilon ;;
        n1 <~ lengthA recResults1 ;;
        s3 <~ sliceA recResults1 0 (n1 - 1) ;;
        concatA s3 recResults2
      else new [first; last]
  end.

Definition ramerDouglasPeucker (points : addr) (epsilon : float) : prog addr :=
  n <~ lengthA points ;; rdp n points epsilon.

Definition analyzeShape (originalPoints : addr) : prog ShapeAnalysis :=
  n <~ lengthA originalPoints ;;
  if (n <? 10)%nat then ret (mkShape unknown 0 DataNull) else
  start <~ getA originalPoints 0 ;;
  end_ <~ getA originalPoints (n - 1) ;;
  pts <~ load originalPoints ;;
  let totalLength := getPathLength pts in
  let displacement := getDistance start end_ in
  let lin := displacement / totalLength in
  if PrimFloat.ltb 0.94 lin then ret (mkShape line lin (DataLine start end_)) else
  let fill := fillRatio pts in
  if PrimFloat.ltb 0.80 fill then ret (mkShape rect fill (rectData pts)) else
  let epsilon := epsilonOf pts in
  simplified <~ ramerDouglasPeucker originalPoints epsilon ;;
  ns <~ lengthA simplified ;;
  s0 <~ getA simplified 0 ;;
  sl <~ getA simplified (ns - 1) ;;
  let isClosed := PrimFloat.ltb (getDistance s0 sl) (diag pts * 0.15)
                  || PrimFloat.ltb (getDistance start end_) (diag pts * 0.15) in
  vertices <~ spreadA simplified ;;
  nvs <~ lengthA vertices ;;
  _ <~ (if isClosed && (3 <? nvs)%nat then
          v0 <~ getA vertices 0 ;;
          vl <~ getA vertices (nvs - 1) ;;
          if PrimFloat.ltb (getDistance v0 vl) (epsilon * 2)
          then popA vertices else ret tt
        else ret tt) ;;
  vCount <~ lengthA vertices ;;
  if (vCount =? 3)%nat then ret (mkShape triangle 0.9 (triangleData pts)) else
  if (4 <=? vCount)%nat && (vCount <=? 6)%nat
  then ret (mkShape rect 0.9 (rectData pts)) else
  pts' <~ load originalPoints ;;
  let totalRadius :=
    fold_left (fun acc p => acc + getDistance p (center pts)) pts' 0 in
  let avgRadius := totalRadius / lengthF pts' in
  let radiusVariance :=
    fold_left (fun acc p =>
                 let r := getDistance p (center pts) in
                 acc + (r - avgRadius) * (r - avgRadius)) pts' 0
    / lengthF pts' in
  let normalizedVariance := radiusVariance / (avgRadius * avgRadius) in
  if PrimFloat.ltb normalizedVariance 0.05 && PrimFloat.ltb 0.6 fill
  then ret (mkShape circle (1 - normalizedVariance)
                    (DataCircle (centerX pts) (centerY pts) avgRadius)) else
  if PrimFloat.ltb 0.35 fill && PrimFloat.ltb fill 0.65
  then ret (mkShape triangle 0.7 (triangleData pts)) else
  ret (mkShape unknown 0 DataNull).

End Store.

(** A store that has grown: every array of [h] is where it was, as it was. *)
Definition extends (h h' : Store.heap) : Prop := exists ext, h' = h ++ ext.

(** ** Sample strokes *)

Definition pt (a b : float) : Point := mkPoint a b.

Definition verticalLine : list Point :=
  [pt 0 0; pt 0 1; pt 0 2; pt 0 3; pt 0 4; pt 0 5; pt 0 6; pt 0 7; pt 0 8; pt 0 9].

Definition verticalUpDown : list Point :=
  [pt 0 0; pt 0 25; pt 0 50; pt 0 75; pt 0 100;
   pt 0 75; pt 0 50; pt 0 25; pt 0 10; pt 0 0].

Definition doubleSquare : list Point :=
  [pt 0 0; pt 10 0; pt 10 10; pt 0 10; pt 0 5;
   pt 0 0; pt 10 0; pt 10 10; pt 0 10; pt 0 5].

Definition singleSpot : list Point := repeat (pt 5 5) 10.

Definition collinear3 : list Point := [pt 0 0; pt 1 0; pt 2 0].

Definition shortDiagonal : list Point :=
  [pt 0 0; pt 1 1; pt 2 2; pt 3 3; pt 4 4; pt 5 5; pt 6 6; pt 7 7; pt 8 8].

Definition perimeter : list Point :=
  [pt 0 0; pt 10 0; pt 20 0; pt 30 0; pt 30 10;
   pt 30 20; pt 20 20; pt 10 20; pt 0 20; pt 0 10].

Definition circle12 : list Point :=
  [pt 400 300; pt 387 350; pt 350 387; pt 300 400; pt 250 387; pt 213 350;
   pt 200 300; pt 213 250; pt 250 213; pt 300 200; pt 350 213; pt 387 250].

Definition scribble : list Point :=
  [pt 30 75; pt 69 16; pt 47 77; pt 60 80; pt 74 8;
   pt 77 1; pt 60 33; pt 70 29; pt 24 91; pt 60 69].

Definition slanted : list Point :=
  [pt 0 0; pt 3 1; pt 6 2; pt 9 3; pt 12 4; pt 15 5; pt 18 6; pt 21 7; pt 24 8; pt 27 9].

Definition closedTriangle : list Point :=
  [pt 0 0; pt 10 0; pt 20 0; pt 30 0; pt 40 0; pt 35 10; pt 30 20; pt 25 30;
   pt 20 40; pt 15 30; pt 10 20; pt 5 10; pt 0 0].

(** A rounded 12-point circle around (300, 300), stretched along the
    horizontal axis. *)
Definition stretched12 : list Point :=
  [pt 497.2865912091155 300; pt 471.6393343519305 350; pt 398.64329560455775 387;
   pt 300 400; pt 201.35670439544225 387; pt 128.36066564806953 350;
   pt 102.7134087908845 300; pt 128.36066564806953 250; pt 201.35670439544225 213;
   pt 300 200; pt 398.64329560455775 213; pt 471.6393343519305 250].

(** ** Notions used in the statements *)

Definition first_of {A : Type} (a : list A) : option A := nth_error a 0.

Definition last_of {A : Type} (a : list A) : option A := nth_error a (length a - 1).

(** The contract of the simplifier on a returned list [r]. *)
Definition rdp_post (points r : list Point) : Prop :=
  (length r <= length points)%nat /\
  ((2 <= length points)%nat -> (2 <= length r)%nat) /\
  first_of r = first_of points /\
  last_of r = last_of points.

(** The decision chain once the stroke has ten points or more. *)
Definition classify (originalPoints : list Point) (start end_ : Point)
    (lin : float) (vCount : nat) : ShapeAnalysis :=
  if PrimFloat.ltb 0.94 lin then mkShape line lin (DataLine start end_) else
  let fill := fillRatio originalPoints in
  if PrimFloat.ltb 0.80 fill then mkShape rect fill (rectData originalPoints) else
  if (vCount =? 3)%nat then mkShape triangle 0.9 (triangleData originalPoints) else
  if (4 <=? vCount)%nat && (vCount <=? 6)%nat
  then mkShape rect 0.9 (rectData originalPoints) else
  let nv := normalizedVariance originalPoints in
  if PrimFloat.ltb nv 0.05 && PrimFloat.ltb 0.6 fill
  then mkShape circle (1 - nv) (circleData originalPoints) else
  if PrimFloat.ltb 0.35 fill && PrimFloat.ltb fill 0.65
  then mkShape triangle 0.7 (triangleData originalPoints) else
  mkShape unknown 0 DataNull.






(** ** Notions on binary64 values *)

(** A value whose sign bit is [s], or NaN. *)
Definition SFsign_is (s : bool) (f : spec_float) : Prop :=
  match f with
  | S754_nan => True
  | S754_zero s' | S754_infinity s' | S754_finite s' _ _ => s' = s
  end.

(** NaN or an infinity. *)
Definition SFnot_finite (f : spec_float) : Prop :=
  match f with
  | S754_nan | S754_infinity _ => True
  | _ => False
  end.

(** The results of the classifier, stage by stage, with the test that
    produced each. *)
Inductive stage_result (originalPoints : list Point) : ShapeAnalysis -> Prop :=
| by_default :
    stage_result originalPoints (mkShape unknown 0 DataNull)
| by_line (lin : float) (start end_ : Point) :
    linearity originalPoints = Returns lin ->
    PrimFloat.ltb 0.94 lin = true ->
    stage_result originalPoints (mkShape line lin (DataLine start end_))
| by_fill :
    PrimFloat.ltb 0.80 (fillRatio originalPoints) = true ->
    stage_result originalPoints
      (mkShape rect (fillRatio originalPoints) (rectData originalPoints))
| by_three_vertices :
    PrimFloat.ltb 0.80 (fillRatio originalPoints) = false ->
    stage_result originalPoints (mkShape triangle 0.9 (triangleData originalPoints))
| by_four_to_six_vertices :
    PrimFloat.ltb 0.80 (fillRatio originalPoints) = false ->
    stage_result originalPoints (mkShape rect 0.9 (rectData originalPoints))
| by_circularity :
    PrimFloat.ltb 0.80 (fillRatio originalPoints) = false ->
    PrimFloat.ltb (normalizedVariance originalPoints) 0.05 = true ->
    PrimFloat.ltb 0.6 (fillRatio originalPoints) = true ->
    stage_result originalPoints
      (mkShape circle (1 - normalizedVariance originalPoints)
               (circleData originalPoints))
| by_fuzzy_fill :
    PrimFloat.ltb 0.80 (fillRatio originalPoints) = false ->
    PrimFloat.ltb 0.35 (fillRatio originalPoints) = true ->
    PrimFloat.ltb (fillRatio originalPoints) 0.65 = true ->
    stage_result originalPoints (mkShape triangle 0.7 (triangleData originalPoints)).

(** ** Notions used for the rest of the code *)

(** [l1] is [l2] with some elements left out, the others in their order. *)
Inductive subseq {A : Type} : list A -> list A -> Prop :=
| subseq_nil : subseq [] []
| subseq_skip (a : A) (l1 l2 : list A) : subseq l1 l2 -> subseq l1 (a :: l2)
| subseq_keep (a : A) (l1 l2 : list A) : subseq l1 l2 -> subseq (a :: l1) (a :: l2).


(** Further sample strokes: a closed diamond, and a stroke that crosses
    itself. *)
Definition diamond : list Point :=
  [pt 50 0; pt 75 25; pt 100 50; pt 75 75; pt 50 100;
   pt 25 75; pt 0 50; pt 25 25; pt 40 10; pt 50 0].

Definition zigzag : list Point :=
  [pt 97 98; pt 0 89; pt 57 34; pt 92 29; pt 75 13;
   pt 40 3; pt 2 3; pt 83 69; pt 1 48; pt 87 27].

(** ** The caller: the [path:created] handler (components/Blackboard.tsx)

    When the pencil is the active tool, the drawing surface hands each
    finished stroke to the classifier and, unless the answer is [unknown],
    replaces the stroke by an object of the canvas library.  The handler is
    modelled up to its calls of the canvas: what it removes and what it
    adds.  The library itself is not modelled.

    A path of the library is a list of commands, [['M', x, y]],
    [['Q', x1, y1, x, y]], [['L', x, y]]: a letter followed by numbers.  The
    [data] of a result is [any] in the source: reading a field of [null]
    throws a TypeError, reading a field an object does not have yields
    [undefined]. *)

From Stdlib Require String.
Import String.StringSyntax.
Delimit Scope string_scope with string.

Record PathCommand : Set := mkCommand { letter : String.string; args : list float }.

(** [cmd.length] *)
Definition commandLength (cmd : PathCommand) : nat := S (length (args cmd)).

(** [cmd[i]] for [1 <= i]: a number, or [undefined]. *)
Definition commandAt (cmd : PathCommand) (i : nat) : option float :=
  nth_error (args cmd) (i - 1).

(** A value that is [undefined], used as a number. *)
Definition toNumber (v : option float) : float :=
  match v with
  | Some a => a
  | None => PrimFloat.nan
  end.

(** The points collected from [path.path], which may be missing.  Under the
    test [cmd.length >= 3] the two reads are in range (see
    [pathPoints_last_two]). *)
Definition pathPoints (path : option (list PathCommand)) : list Point :=
  match path with
  | None => []
  | Some cmds =>
      fold_left
        (fun points cmd =>
           if (3 <=? commandLength cmd)%nat
           then points ++ [mkPoint (toNumber (commandAt cmd (commandLength cmd - 2)))
                                   (toNumber (commandAt cmd (commandLength cmd - 1)))]
           else points)
        cmds []
  end.

Inductive Field : Set :=
  f_centerX | f_centerY | f_radius | f_left | f_top | f_width | f_height.

(** [shape.data.f] for a field [f] that holds a number. *)
Definition readNumber (d : ShapeData) (f : Field) : outcome (option float) :=
  match d with
  | DataNull => TypeError
  | DataLine _ _ => Returns None
  | DataRect l t w h =>
      Returns match f with
              | f_left => Some l
              | f_top => Some t
              | f_width => Some w
              | f_height => Some h
              | _ => None
              end
  | DataTriangle cx cy w h =>
      Returns match f with
              | f_centerX => Some cx
              | f_centerY => Some cy
              | f_width => Some w
              | f_height => Some h
              | _ => None
              end
  | DataCircle cx cy r =>
      Returns match f with
              | f_centerX => Some cx
              | f_centerY => Some cy
              | f_radius => Some r
              | _ => None
              end
  end.

(** [shape.data.start] and [shape.data.end], then a dereference. *)
Definition readStart (d : ShapeData) : outcome Point :=
  match d with
  | DataLine start _ => Returns start
  | _ => TypeError
  end.

Definition readEnd (d : ShapeData) : outcome Point :=
  match d with
  | DataLine _ end_ => Returns end_
  | _ => TypeError
  end.

Inductive Origin : Set := origin_center | origin_left | origin_top.

Record Props : Set := mkProps {
  stroke : String.string;
  strokeWidth : float;
  fill : String.string;
  originX : Origin;
  originY : Origin;
  selectable : bool
}.

(** The objects the handler constructs, with the options it passes. *)
Inductive FabricObject : Set :=
| FabricCircle (props : Props) (left top radius : option float)
| FabricRect (props : Props) (left top : float) (width height : option float)
| FabricTriangle (props : Props) (left top width height : option float)
| FabricLine (coords : list float) (props : Props).

Definition commonProps (activeColor : String.string) (activeWidth : float) : Props :=
  mkProps activeColor activeWidth "transparent"%string origin_center origin_center true.

Definition lineProps (activeColor : String.string) (activeWidth : float) : Props :=
  mkProps activeColor activeWidth "transparent"%string origin_left origin_top true.

(** The chain of tests on [shape.type] that assigns [newObject]; it stays
    [undefined] on a kind that is none of the four. *)
Definition newObject (activeColor : String.string) (activeWidth : float)
    (shape : ShapeAnalysis) : outcome (option FabricObject) :=
  match type shape with
  | circle =>
      left <- readNumber (data shape) f_centerX ;;
      top <- readNumber (data shape) f_centerY ;;
      radius <- readNumber (data shape) f_radius ;;
      Returns (Some (FabricCircle (commonProps activeColor activeWidth) left top radius))
  | rect =>
      left <- readNumber (data shape) f_left ;;
      width <- readNumber (data shape) f_width ;;
      top <- readNumber (data shape) f_top ;;
      height <- readNumber (data shape) f_height ;;
      Returns (Some (FabricRect (commonProps activeColor activeWidth)
                       (toNumber left + toNumber width / 2)
                       (toNumber top + toNumber height / 2)
                       width height))
  | triangle =>
      left <- readNumber (data shape) f_centerX ;;
      top <- readNumber (data shape) f_centerY ;;
      width <- readNumber (data shape) f_width ;;
      height <- readNumber (data shape) f_height ;;
      Returns (Some (FabricTriangle (commonProps activeColor activeWidth)
                       left top width height))
  | line =>
      start <- readStart (data shape) ;;
      end_ <- readEnd (data shape) ;;
      Returns (Some (FabricLine [x start; y start; x end_; y end_]
                       (lineProps activeColor activeWidth)))
  | unknown => Returns None
  end.

(** The calls the handler makes on the canvas. *)
Inductive CanvasCall : Set :=
| canvas_remove_path
| canvas_add (newObject : FabricObject)
| canvas_renderAll.

(** The handler: the calls made on the canvas, in order, and how the
    handler ends. *)
Definition pathCreated (activeColor : String.string) (activeWidth : float)
    (path : option (list PathCommand)) : list CanvasCall * outcome unit :=
  let points := pathPoints path in
  match analyzeShape points with
  | Returns shape =>
      match type shape with
      | unknown => ([], Returns tt)
      | _ =>
          match newObject activeColor activeWidth shape with
          | Returns (Some o) =>
              ([canvas_remove_path; canvas_add o; canvas_renderAll], Returns tt)
          | Returns None => ([canvas_remove_path], Returns tt)
          | TypeError => ([canvas_remove_path], TypeError)
          | OutOfFuel => ([canvas_remove_path], OutOfFuel)
          end
      end
  | TypeError => ([], TypeError)
  | OutOfFuel => ([], OutOfFuel)
  end.

(** * Properties *)

(** ** Lists and slices *)

Lemma slice_length {A : Type} (from to : nat) (a : list A) :
  length (slice from to a) = Nat.min (to - from) (length a - from).
Proof. unfold slice. now rewrite length_firstn, length_skipn. Qed.

Lemma slice_prefix {A : Type} (n : nat) (a : list A) : slice 0 n a = firstn n a.
Proof. unfold slice. now rewrite Nat.sub_0_r. Qed.

Lemma slice_suffix {A : Type} (n : nat) (a : list A) :
  (n <= length a)%nat -> slice n (length a - 1 + 1) a = skipn n a.
Proof.
  intros Hn. unfold slice. apply firstn_all2. rewrite length_skipn. lia.
Qed.

Lemma get_Returns (points : list Point) (i : nat) :
  (i < length points)%nat -> exists p, get points i = Returns p /\ nth_error points i = Some p.
Proof.
  intros Hi. unfold get. destruct (nth_error points i) as [p|] eqn:E.
  - now exists p.
  - apply nth_error_None in E. lia.
Qed.

Lemma get_inv (points : list Point) (i : nat) (p : Point) :
  get points i = Returns p -> nth_error points i = Some p.
Proof. unfold get. destruct (nth_error points i); congruence. Qed.

Lemma first_of_app {A : Type} (a b : list A) :
  a <> [] -> first_of (a ++ b) = first_of a.
Proof. destruct a; [congruence | reflexivity]. Qed.

Lemma last_of_app {A : Type} (a b : list A) :
  b <> [] -> last_of (a ++ b) = last_of b.
Proof.
  intros Hb. unfold last_of. rewrite length_app.
  assert (0 < length b)%nat by (destruct b; [congruence | simpl; lia]).
  rewrite nth_error_app2 by lia. f_equal. lia.
Qed.

Lemma first_of_firstn {A : Type} (n : nat) (a : list A) :
  (0 < n)%nat -> first_of (firstn n a) = first_of a.
Proof. destruct n; [lia|]. now destruct a. Qed.

Lemma last_of_skipn {A : Type} (n : nat) (a : list A) :
  (n < length a)%nat -> last_of (skipn n a) = last_of a.
Proof.
  intros Hn. unfold last_of. rewrite length_skipn, nth_error_skipn. f_equal. lia.
Qed.

(** ** The scan of the simplifier *)

(** The scan leaves its state as it found it or ends on an index it
    visited. *)
Lemma rdp_scan_index (first last : Point) (mid : list Point) :
  forall i dmax index dmax' index',
    rdp_scan first last mid i dmax index = (dmax', index') ->
    (dmax' = dmax /\ index' = index) \/ (i <= index' < i + length mid)%nat.
Proof.
  induction mid as [|p mid IH]; intros i dmax index dmax' index' H; simpl in H.
  - left. now inversion H.
  - destruct (PrimFloat.ltb dmax (perpendicularDistance p first last));
      apply IH in H; simpl; destruct H as [[-> ->]|H]; auto; right; lia.
Qed.

(** ** The simplifier *)

Lemma rdp_short (fuel : nat) (points : list Point) (epsilon : float) :
  (length points < 3)%nat -> rdp fuel points epsilon = Returns points.
Proof.
  intros H. apply Nat.ltb_lt in H. destruct fuel; simpl; now rewrite H.
Qed.

(** What a returning call went through. *)
Lemma rdp_cases (fuel : nat) (points : list Point) (epsilon : float) (r : list Point) :
  rdp fuel points epsilon = Returns r ->
  ((length points < 3)%nat /\ r = points) \/
  exists fuel' first last dmax index,
    fuel = S fuel' /\ (3 <= length points)%nat /\
    nth_error points 0 = Some first /\
    nth_error points (length points - 1) = Some last /\
    rdp_scan first last (slice 1 (length points - 1) points) 1 0 0%nat = (dmax, index) /\
    ((PrimFloat.ltb epsilon dmax = false /\ r = [first; last]) \/
     (PrimFloat.ltb epsilon dmax = true /\
      exists r1 r2,
        rdp fuel' (slice 0 (index + 1) points) epsilon = Returns r1 /\
        rdp fuel' (slice index (length points - 1 + 1) points) epsilon = Returns r2 /\
        r = slice 0 (length r1 - 1) r1 ++ r2)).
Proof.
  intros H. destruct (length points <? 3)%nat eqn:Hlen.
  - left. apply Nat.ltb_lt in Hlen. rewrite rdp_short in H by assumption.
    split; [assumption | congruence].
  - right. apply Nat.ltb_ge in Hlen.
    destruct fuel as [|fuel']; simpl in H;
      (destruct (length points <? 3)%nat eqn:E; [apply Nat.ltb_lt in E; lia|]);
      [discriminate|].
    destruct (get points 0) as [first| |] eqn:G0; simpl in H; try discriminate.
    destruct (get points (length points - 1)) as [last| |] eqn:G1; simpl in H;
      try discriminate.
    destruct (rdp_scan first last (slice 1 (length points - 1) points) 1 0 0%nat)
      as [dmax index] eqn:Hscan.
    exists fuel', first, last, dmax, index.
    repeat (split; [solve [auto using get_inv] |]).
    destruct (PrimFloat.ltb epsilon dmax).
    + right. split; [reflexivity|].
      destruct (rdp fuel' (slice 0 (index + 1) points) epsilon) as [r1| |];
        simpl in H; try discriminate.
      destruct (rdp fuel' (slice index (length points - 1 + 1) points) epsilon)
        as [r2| |]; simpl in H; try discriminate.
      exists r1, r2. repeat split. congruence.
    + left. split; [reflexivity | congruence].
Qed.

Lemma rdp_post_refl (points : list Point) : rdp_post points points.
Proof. unfold rdp_post. auto. Qed.

Lemma rdp_post_ends (points : list Point) (first last : Point) :
  (3 <= length points)%nat ->
  nth_error points 0 = Some first ->
  nth_error points (length points - 1) = Some last ->
  rdp_post points [first; last].
Proof.
  intros Hlen H0 H1. unfold rdp_post, first_of, last_of. simpl.
  repeat split; auto; lia.
Qed.

Lemma rdp_post_concat (points r1 r2 : list Point) (index : nat) :
  (3 <= length points)%nat -> (index < length points - 1)%nat ->
  rdp_post (slice 0 (index + 1) points) r1 ->
  rdp_post (slice index (length points - 1 + 1) points) r2 ->
  rdp_post points (slice 0 (length r1 - 1) r1 ++ r2).
Proof.
  intros Hlen Hidx. rewrite !slice_prefix, slice_suffix by lia.
  intros (L1 & T1 & F1 & _) (L2 & T2 & F2 & E2).
  rewrite length_firstn in L1, T1. rewrite length_skipn in L2, T2.
  assert (Hr2 : (2 <= length r2)%nat) by (apply T2; lia).
  assert (Hne2 : r2 <> []) by (destruct r2; [simpl in Hr2; lia | congruence]).
  unfold rdp_post. rewrite length_app, length_firstn.
  repeat split; try lia.
  - destruct index as [|index].
    + assert (Hr1 : (length r1 - 1 = 0)%nat) by lia. rewrite Hr1. simpl. exact F2.
    + assert (Hr1 : (2 <= length r1)%nat) by (apply T1; lia).
      rewrite first_of_app.
      * rewrite first_of_firstn by lia. rewrite F1. apply first_of_firstn. lia.
      * destruct r1 as [|a [|b r1]]; simpl in Hr1; try lia. simpl; congruence.
  - rewrite last_of_app by assumption. rewrite E2. apply last_of_skipn. lia.
Qed.

Lemma rdp_scan_bound (points : list Point) (first last : Point) (dmax : float) (index : nat) :
  (3 <= length points)%nat ->
  rdp_scan first last (slice 1 (length points - 1) points) 1 0 0%nat = (dmax, index) ->
  (index < length points - 1)%nat /\ (index = 0%nat -> dmax = 0).
Proof.
  intros Hlen H. apply rdp_scan_index in H. rewrite slice_length in H.
  destruct H as [[-> ->]|H]; split; auto; lia.
Qed.

Theorem rdp_returns_post (fuel : nat) :
  forall points epsilon r,
    rdp fuel points epsilon = Returns r -> rdp_post points r.
Proof.
  induction fuel as [|fuel IH]; intros points epsilon r H;
    apply rdp_cases in H;
    destruct H as [[_ ->]|(fuel' & first & last & dmax & index & Hf & Hlen & H0 & H1 & Hscan & H)];
    try apply rdp_post_refl; try discriminate.
  injection Hf as <-.
  destruct H as [[_ ->]|(_ & r1 & r2 & R1 & R2 & ->)].
  - now apply rdp_post_ends.
  - apply rdp_scan_bound in Hscan; [|assumption].
    apply rdp_post_concat with (index := index); try tauto; eauto.
Qed.

(** One unfolding of the recursive function on a list of three points or
    more. *)
Lemma rdp_step (fuel' : nat) (points : list Point) (epsilon : float) :
  (3 <= length points)%nat ->
  exists first last dmax index,
    nth_error points 0 = Some first /\
    nth_error points (length points - 1) = Some last /\
    rdp_scan first last (slice 1 (length points - 1) points) 1 0 0%nat = (dmax, index) /\
    rdp (S fuel') points epsilon =
      if PrimFloat.ltb epsilon dmax then
        recResults1 <- rdp fuel' (slice 0 (index + 1) points) epsilon ;;
        recResults2 <- rdp fuel' (slice index (length points - 1 + 1) points) epsilon ;;
        Returns (slice 0 (length recResults1 - 1) recResults1 ++ recResults2)
      else Returns [first; last].
Proof.
  intros Hlen.
  destruct (get_Returns points 0%nat ltac:(lia)) as (first & G0 & N0).
  destruct (get_Returns points (length points - 1)%nat ltac:(lia)) as (last & G1 & N1).
  destruct (rdp_scan first last (slice 1 (length points - 1) points) 1 0 0%nat)
    as [dmax index] eqn:Hscan.
  exists first, last, dmax, index. repeat (split; [assumption|]).
  simpl. destruct (length points <? 3)%nat eqn:E; [apply Nat.ltb_lt in E; lia|].
  rewrite G0, G1. simpl. rewrite Hscan. reflexivity.
Qed.

(** The simplifier returns on every list when the tolerance is not negative
    (which a NaN tolerance is not either), with fuel bounded by the length
    of the list. *)
Theorem rdp_terminates (fuel : nat) :
  forall points epsilon,
    PrimFloat.ltb epsilon 0 = false ->
    (length points <= fuel + 2)%nat ->
    exists r, rdp fuel points epsilon = Returns r.
Proof.
  induction fuel as [|fuel IH]; intros points epsilon Heps Hlen.
  - exists points. apply rdp_short. lia.
  - destruct (Nat.lt_ge_cases (length points) 3) as [Hs|Hl].
    + exists points. now apply rdp_short.
    + destruct (rdp_step fuel points epsilon Hl)
        as (first & last & dmax & index & _ & _ & Hscan & ->).
      apply rdp_scan_bound in Hscan; [|assumption]. destruct Hscan as [Hidx Hz].
      destruct (PrimFloat.ltb epsilon dmax) eqn:Hd; [|eauto].
      assert (index <> 0%nat) by (intros ->; rewrite Hz in Hd; congruence).
      destruct (IH (slice 0 (index + 1) points) epsilon Heps) as [r1 ->].
      { rewrite slice_length. lia. }
      destruct (IH (slice index (length points - 1 + 1) points) epsilon Heps) as [r2 ->].
      { rewrite slice_length. lia. }
      simpl. eauto.
Qed.

Lemma rdp_fuel_S (fuel : nat) :
  forall points epsilon r,
    rdp fuel points epsilon = Returns r -> rdp (S fuel) points epsilon = Returns r.
Proof.
  induction fuel as [|fuel IH]; intros points epsilon r H; pose proof H as H';
    apply rdp_cases in H;
    destruct H as [[Hs ->]|(fuel' & first & last & dmax & index & Hf & Hlen & H0 & H1 & Hscan & H)];
    try (now apply rdp_short); try discriminate.
  injection Hf as <-.
  destruct (rdp_step (S fuel) points epsilon Hlen)
    as (first' & last' & dmax' & index' & H0' & H1' & Hscan' & ->).
  assert (first' = first) by congruence. assert (last' = last) by congruence.
  subst first' last'. rewrite Hscan in Hscan'. injection Hscan' as <- <-.
  destruct H as [[-> ->]|(-> & r1 & r2 & R1 & R2 & ->)]; [reflexivity|].
  apply IH in R1, R2. now rewrite R1, R2.
Qed.

Lemma rdp_fuel_le (fuel fuel' : nat) (points : list Point) (epsilon : float) (r : list Point) :
  (fuel <= fuel')%nat ->
  rdp fuel points epsilon = Returns r -> rdp fuel' points epsilon = Returns r.
Proof.
  induction 1 as [|fuel' _ IH]; [auto|]. intros H. apply rdp_fuel_S. auto.
Qed.

(** When the scan ends on index 0 and the tolerance is below the [dmax] it
    found, the second recursive call is on the whole list again: the
    recursion does not end, whatever the fuel. *)
Lemma rdp_loops (fuel : nat) :
  forall points epsilon first last dmax,
    (3 <= length points)%nat ->
    nth_error points 0 = Some first ->
    nth_error points (length points - 1) = Some last ->
    rdp_scan first last (slice 1 (length points - 1) points) 1 0 0%nat = (dmax, 0%nat) ->
    PrimFloat.ltb epsilon dmax = true ->
    rdp fuel points epsilon = OutOfFuel.
Proof.
  induction fuel as [|fuel IH]; intros points epsilon first last dmax Hlen H0 H1 Hscan Hd.
  - simpl. destruct (length points <? 3)%nat eqn:E; [apply Nat.ltb_lt in E; lia|].
    reflexivity.
  - destruct (rdp_step fuel points epsilon Hlen)
      as (first' & last' & dmax' & index' & H0' & H1' & Hscan' & ->).
    assert (first' = first) by congruence. assert (last' = last) by congruence.
    subst first' last'. rewrite Hscan in Hscan'. injection Hscan' as <- <-.
    rewrite Hd. rewrite rdp_short by (rewrite slice_length; lia).
    simpl bind. rewrite slice_suffix by lia. simpl skipn.
    now rewrite (IH points epsilon first last dmax).
Qed.

(** The fuel [length points] is enough whenever any fuel is. *)
Theorem rdp_fuel_enough (n : nat) :
  forall points fuel epsilon r,
    (length points <= n)%nat ->
    rdp fuel points epsilon = Returns r ->
    ramerDouglasPeucker points epsilon = Returns r.
Proof.
  unfold ramerDouglasPeucker.
  induction n as [|n IH]; intros points fuel epsilon r Hn H; pose proof H as H';
    apply rdp_cases in H;
    destruct H as [[Hs ->]|(fuel' & first & last & dmax & index & -> & Hlen & H0 & H1 & Hscan & H)];
    try (now apply rdp_short); try lia.
  set (m := (length points - 1)%nat).
  replace (rdp (length points) points epsilon) with (rdp (S m) points epsilon)
    by (f_equal; subst m; lia).
  destruct (rdp_step m points epsilon Hlen)
    as (first' & last' & dmax' & index' & H0' & H1' & Hscan' & ->).
  assert (first' = first) by congruence. assert (last' = last) by congruence.
  subst first' last'. rewrite Hscan in Hscan'. injection Hscan' as <- <-.
  destruct H as [[-> ->]|(Hd & r1 & r2 & R1 & R2 & ->)]; [reflexivity|].
  rewrite Hd.
  destruct index as [|index].
  - rewrite (rdp_loops (S fuel') points epsilon first last dmax Hlen H0 H1 Hscan Hd) in H'.
    discriminate.
  - apply rdp_scan_bound in Hscan; [|assumption]. destruct Hscan as [Hidx _].
    apply IH in R1, R2; try (rewrite slice_length; lia).
    apply rdp_fuel_le with (fuel' := m) in R1, R2; try (rewrite slice_length; lia).
    now rewrite R1, R2.
Qed.

Corollary rdp_fuel_adequate (points : list Point) (fuel : nat) (epsilon : float)
    (r : list Point) :
  rdp fuel points epsilon = Returns r ->
  ramerDouglasPeucker points epsilon = Returns r.
Proof. apply (rdp_fuel_enough (length points)). lia. Qed.

(** No read of the simplifier is out of range. *)
Lemma rdp_no_TypeError (fuel : nat) :
  forall points epsilon, rdp fuel points epsilon <> TypeError.
Proof.
  induction fuel as [|fuel IH]; intros points epsilon.
  - simpl. destruct (length points <? 3)%nat; discriminate.
  - destruct (Nat.lt_ge_cases (length points) 3) as [Hs|Hl].
    + rewrite rdp_short by assumption. discriminate.
    + destruct (rdp_step fuel points epsilon Hl)
        as (first & last & dmax & index & _ & _ & _ & ->).
      destruct (PrimFloat.ltb epsilon dmax); [|discriminate].
      pose proof (IH (slice 0 (index + 1) points) epsilon) as N1.
      pose proof (IH (slice index (length points - 1 + 1) points) epsilon) as N2.
      destruct (rdp fuel (slice 0 (index + 1) points) epsilon); simpl; try congruence.
      destruct (rdp fuel (slice index (length points - 1 + 1) points) epsilon);
        simpl; congruence.
Qed.

(** ** Comparisons of binary64 numbers *)

Ltac cmp_cases :=
  repeat match goal with
  | H : context [Z.compare ?a ?b] |- _ => destruct (Z.compare_spec a b)
  | |- context [Z.compare ?a ?b] => destruct (Z.compare_spec a b)
  | H : context [Pos.compare ?a ?b] |- _ => destruct (Pos.compare_spec a b)
  | |- context [Pos.compare ?a ?b] => destruct (Pos.compare_spec a b)
  end.

Lemma SFcompare_lt_trans (a b c : spec_float) (o : comparison) :
  SFcompare a b = Some Lt -> SFcompare b c = Some o -> o <> Gt ->
  SFcompare a c = Some Lt.
Proof.
  destruct a as [sa|sa| |sa ma ea], b as [sb|sb| |sb mb eb], c as [sc|sc| |sc mc ec];
    simpl; try discriminate;
    try destruct sa; try destruct sb; try destruct sc; simpl;
    try discriminate; try reflexivity;
    change (Pos.compare_cont Eq) with Pos.compare;
    intros H1 H2 Ho; injection H2 as <-;
    cmp_cases; simpl in *; try discriminate; try reflexivity; try lia; try congruence.
Qed.

Lemma SFcompare_le_lt_trans (a b c : spec_float) (o : comparison) :
  SFcompare a b = Some o -> o <> Gt -> SFcompare b c = Some Lt ->
  SFcompare a c = Some Lt.
Proof.
  destruct a as [sa|sa| |sa ma ea], b as [sb|sb| |sb mb eb], c as [sc|sc| |sc mc ec];
    simpl; try discriminate;
    try destruct sa; try destruct sb; try destruct sc; simpl;
    try discriminate; try reflexivity;
    change (Pos.compare_cont Eq) with Pos.compare;
    intros H1 Ho H2; injection H1 as <-;
    cmp_cases; simpl in *; try discriminate; try reflexivity; try lia; try congruence.
Qed.

Lemma SFcompare_antisym (a b : spec_float) :
  SFcompare a b = Some Lt -> SFcompare b a = Some Gt.
Proof.
  destruct a as [sa|sa| |sa ma ea], b as [sb|sb| |sb mb eb];
    simpl; try discriminate;
    try destruct sa; try destruct sb; simpl;
    try discriminate; try reflexivity;
    change (Pos.compare_cont Eq) with Pos.compare;
    intros H1; cmp_cases; simpl in *; try discriminate; try reflexivity; try lia.
Qed.

Lemma ltb_compare (a b : float) :
  PrimFloat.ltb a b = true <-> SFcompare (Prim2SF a) (Prim2SF b) = Some Lt.
Proof.
  rewrite FloatAxioms.ltb_spec. unfold SFltb.
  destruct (SFcompare (Prim2SF a) (Prim2SF b)) as [[| |]|]; split; congruence.
Qed.

Lemma leb_compare (a b : float) :
  PrimFloat.leb a b = true <->
  exists o, SFcompare (Prim2SF a) (Prim2SF b) = Some o /\ o <> Gt.
Proof.
  rewrite FloatAxioms.leb_spec. unfold SFleb.
  destruct (SFcompare (Prim2SF a) (Prim2SF b)) as [[| |]|]; split;
    try congruence; try (intros (o & Ho & Hn); congruence);
    intros _; eexists; split; try reflexivity; discriminate.
Qed.

Lemma ltb_leb (a b : float) : PrimFloat.ltb a b = true -> PrimFloat.leb a b = true.
Proof.
  rewrite ltb_compare, leb_compare. intros H. exists Lt. split; [assumption | discriminate].
Qed.

Lemma leb_ltb_trans (a b c : float) :
  PrimFloat.leb a b = true -> PrimFloat.ltb b c = true -> PrimFloat.ltb a c = true.
Proof.
  rewrite leb_compare, !ltb_compare. intros (o & Ho & Hn) H.
  eapply SFcompare_le_lt_trans; eauto.
Qed.

Lemma ltb_leb_trans (a b c : float) :
  PrimFloat.ltb a b = true -> PrimFloat.leb b c = true -> PrimFloat.ltb a c = true.
Proof.
  rewrite leb_compare, !ltb_compare. intros H (o & Ho & Hn).
  eapply SFcompare_lt_trans; eauto.
Qed.

Lemma leb_trans (a b c : float) :
  PrimFloat.leb a b = true -> PrimFloat.leb b c = true -> PrimFloat.leb a c = true.
Proof.
  intros H1 H2. pose proof H2 as H2'. rewrite leb_compare in H2.
  destruct H2 as ([| |] & Ho & Hn); try congruence.
  - rewrite leb_compare in H1. destruct H1 as ([| |] & Ho1 & Hn1); try congruence.
    + revert Ho Ho1. rewrite FloatAxioms.leb_spec. unfold SFleb.
      destruct (Prim2SF a) as [sa|sa| |sa ma ea], (Prim2SF b) as [sb|sb| |sb mb eb],
        (Prim2SF c) as [sc|sc| |sc mc ec];
        simpl; try discriminate;
        try destruct sa; try destruct sb; try destruct sc; simpl;
        try discriminate; try reflexivity;
        change (Pos.compare_cont Eq) with Pos.compare;
        intros; cmp_cases; simpl in *; try discriminate; try reflexivity; try lia;
        congruence.
    + apply ltb_leb. apply ltb_leb_trans with b; [|assumption].
      now apply ltb_compare.
  - apply ltb_leb. apply leb_ltb_trans with b; [assumption|]. now apply ltb_compare.
Qed.

Lemma ltb_asym (a b : float) : PrimFloat.ltb a b = true -> PrimFloat.ltb b a = false.
Proof.
  rewrite ltb_compare. intros H. apply SFcompare_antisym in H.
  rewrite FloatAxioms.ltb_spec. unfold SFltb. now rewrite H.
Qed.

Lemma ltb_not_zero (a b : float) :
  PrimFloat.ltb a b = true -> PrimFloat.leb 0 a = true -> b <> 0.
Proof.
  intros H1 H2 ->. pose proof (leb_ltb_trans _ _ _ H2 H1) as H. vm_compute in H.
  discriminate.
Qed.

(** ** The tolerance passed to the simplifier *)

Lemma Math_max_5_not_negative (b : float) :
  PrimFloat.ltb (Math_max 5 b) 0 = false.
Proof.
  unfold Math_max. change (PrimFloat.is_nan 5) with false. simpl orb.
  destruct (PrimFloat.is_nan b); [reflexivity|].
  destruct (PrimFloat.ltb 5 b) eqn:E.
  - apply ltb_asym. now apply leb_ltb_trans with 5.
  - destruct (PrimFloat.ltb b 5); reflexivity.
Qed.

Lemma epsilonOf_not_negative (originalPoints : list Point) :
  PrimFloat.ltb (epsilonOf originalPoints) 0 = false.
Proof. apply Math_max_5_not_negative. Qed.

(** ** The stages of the classifier *)

Lemma ramerDouglasPeucker_returns (points : list Point) (epsilon : float) :
  PrimFloat.ltb epsilon 0 = false ->
  exists r, ramerDouglasPeucker points epsilon = Returns r /\ rdp_post points r.
Proof.
  intros Heps. unfold ramerDouglasPeucker.
  destruct (rdp_terminates (length points) points epsilon Heps) as [r Hr]; [lia|].
  exists r. split; [assumption|]. eapply rdp_returns_post; eassumption.
Qed.

Lemma mergeClosed_returns (originalPoints simplified : list Point) :
  (1 <= length originalPoints)%nat -> (1 <= length simplified)%nat ->
  exists vs, mergeClosed originalPoints simplified = Returns vs /\
             (vs = simplified \/ vs = removelast simplified).
Proof.
  intros Ho Hs. unfold mergeClosed.
  destruct (get_Returns simplified 0) as (s0 & -> & _); [lia|].
  destruct (get_Returns simplified (length simplified - 1)) as (sl & -> & _); [lia|].
  destruct (get_Returns originalPoints 0) as (p0 & -> & _); [lia|].
  destruct (get_Returns originalPoints (length originalPoints - 1)) as (pl & -> & _);
    [lia|].
  simpl bind.
  match goal with |- context [if ?c then _ else _] => destruct c end; [|eauto].
  match goal with |- context [if ?c then _ else _] => destruct c end; eauto.
Qed.

Lemma vertices_returns (originalPoints : list Point) :
  (2 <= length originalPoints)%nat ->
  exists vs, vertices originalPoints = Returns vs.
Proof.
  intros Hlen. unfold vertices.
  destruct (ramerDouglasPeucker_returns originalPoints (epsilonOf originalPoints))
    as (r & -> & (_ & T & _)); [apply epsilonOf_not_negative|].
  simpl bind.
  destruct (mergeClosed_returns originalPoints r) as (vs & -> & _); try lia; eauto.
Qed.

Lemma analyzeShape_short (originalPoints : list Point) :
  (length originalPoints < 10)%nat ->
  analyzeShape originalPoints = Returns (mkShape unknown 0 DataNull).
Proof.
  intros H. apply Nat.ltb_lt in H. unfold analyzeShape. now rewrite H.
Qed.

Lemma analyzeShape_stages (originalPoints : list Point) :
  (10 <= length originalPoints)%nat ->
  exists start end_ vs,
    nth_error originalPoints 0 = Some start /\
    nth_error originalPoints (length originalPoints - 1) = Some end_ /\
    linearity originalPoints
      = Returns (getDistance start end_ / getPathLength originalPoints) /\
    vertices originalPoints = Returns vs /\
    analyzeShape originalPoints
      = Returns (classify originalPoints start end_
                   (getDistance start end_ / getPathLength originalPoints)
                   (length vs)).
Proof.
  intros Hlen.
  destruct (get_Returns originalPoints 0) as (start & G0 & N0); [lia|].
  destruct (get_Returns originalPoints (length originalPoints - 1))
    as (end_ & G1 & N1); [lia|].
  destruct (vertices_returns originalPoints) as [vs Hvs]; [lia|].
  exists start, end_, vs.
  assert (Hlin : linearity originalPoints
                 = Returns (getDistance start end_ / getPathLength originalPoints)).
  { unfold linearity. now rewrite G0, G1. }
  repeat (split; [assumption|]).
  unfold analyzeShape, classify.
  destruct (length originalPoints <? 10)%nat eqn:E; [apply Nat.ltb_lt in E; lia|].
  rewrite G0, G1, Hlin. cbn [bind]. cbv zeta.
  destruct (PrimFloat.ltb 0.94 _); [reflexivity|].
  destruct (PrimFloat.ltb 0.80 _); [reflexivity|].
  rewrite Hvs. cbn [bind]. cbv zeta.
  repeat match goal with |- context [if ?c then _ else _] => destruct c end;
    reflexivity.
Qed.

Section Binary64.

Local Open Scope Z_scope.

(** ** Rounding to binary64 *)

Lemma digits2_pos_bounds (p : positive) :
  2 ^ (Zpos (digits2_pos p) - 1) <= Zpos p < 2 ^ Zpos (digits2_pos p).
Proof.
  induction p as [p IH|p IH|]; simpl digits2_pos.
  - rewrite Pos2Z.inj_succ.
    replace (Z.succ (Zpos (digits2_pos p)) - 1) with (Z.succ (Zpos (digits2_pos p) - 1)) by lia.
    rewrite !Z.pow_succ_r by lia. lia.
  - rewrite Pos2Z.inj_succ.
    replace (Z.succ (Zpos (digits2_pos p)) - 1) with (Z.succ (Zpos (digits2_pos p) - 1)) by lia.
    rewrite !Z.pow_succ_r by lia. lia.
  - simpl. lia.
Qed.

Lemma digits2_pos_le (p : positive) (k : Z) :
  0 <= k -> Zpos p < 2 ^ k -> Zpos (digits2_pos p) <= k.
Proof.
  intros Hk H. destruct (digits2_pos_bounds p) as [L _].
  destruct (Z.le_gt_cases (Zpos (digits2_pos p)) k) as [|G]; [assumption|].
  assert (2 ^ k <= 2 ^ (Zpos (digits2_pos p) - 1)) by (apply Z.pow_le_mono_r; lia).
  lia.
Qed.

Lemma digits2_pos_gt (p : positive) (k : Z) :
  0 <= k -> 2 ^ k <= Zpos p -> k < Zpos (digits2_pos p).
Proof.
  intros Hk H. destruct (digits2_pos_bounds p) as [_ U].
  destruct (Z.lt_ge_cases k (Zpos (digits2_pos p))) as [|G]; [assumption|].
  assert (2 ^ Zpos (digits2_pos p) <= 2 ^ k) by (apply Z.pow_le_mono_r; lia).
  lia.
Qed.

Lemma shr_m_shr_1 (r : shr_record) :
  0 <= shr_m r -> shr_m (shr_1 r) = shr_m r / 2.
Proof.
  destruct r as [m b s]. cbn [shr_m]. intros Hm.
  destruct m as [|[p|p|]|p]; cbn [shr_1 shr_m]; try reflexivity; try lia.
  - apply Z.div_unique with 1; lia.
  - apply Z.div_unique with 0; lia.
Qed.

Lemma shr_1_nonneg (r : shr_record) : 0 <= shr_m r -> 0 <= shr_m (shr_1 r).
Proof. intros H. rewrite shr_m_shr_1 by assumption. apply Z.div_pos; lia. Qed.

Lemma shr_m_iter (p : positive) :
  forall r, 0 <= shr_m r ->
            shr_m (@SpecFloat.iter_pos _ shr_1 p r) = shr_m r / 2 ^ Zpos p.
Proof.
  induction p as [p IH|p IH|]; intros r Hr; cbn [SpecFloat.iter_pos].
  - assert (H1 : 0 <= shr_m (shr_1 r)) by now apply shr_1_nonneg.
    assert (H2 : 0 <= shr_m (@SpecFloat.iter_pos _ shr_1 p (shr_1 r))).
    { rewrite IH by assumption. apply Z.div_pos; lia. }
    rewrite IH, IH, shr_m_shr_1 by assumption.
    rewrite !Z.div_div by lia. f_equal.
    rewrite Pos2Z.inj_xI, Z.pow_add_r, Z.pow_mul_r, Z.pow_1_r by lia.
    replace (2 ^ 2) with 4 by reflexivity.
    replace ((2 ^ Zpos p) * (2 ^ Zpos p)) with ((2 ^ Zpos p) ^ 2) by (rewrite Z.pow_2_r; ring).
    rewrite <- !Z.pow_mul_r by lia. rewrite (Z.mul_comm (Zpos p)).
    rewrite Z.pow_mul_r by lia. change (2 ^ 2) with 4. ring.
  - assert (H2 : 0 <= shr_m (@SpecFloat.iter_pos _ shr_1 p r)).
    { rewrite IH by assumption. apply Z.div_pos; lia. }
    rewrite IH, IH by assumption.
    rewrite !Z.div_div by lia. f_equal.
    rewrite Pos2Z.inj_xO. rewrite <- Z.pow_add_r by lia. f_equal. lia.
  - rewrite shr_m_shr_1 by assumption. reflexivity.
Qed.

Lemma fexp_eq (e : Z) : fexp prec emax e = Z.max (e - 53) (-1074).
Proof. reflexivity. Qed.

Lemma shr_m_of_loc (m : Z) (l : location) : shr_m (shr_record_of_loc m l) = m.
Proof. destruct l as [|[]]; reflexivity. Qed.

Lemma shr_fexp_spec (m e : Z) (l : location) :
  0 <= m ->
  shr_m (fst (shr_fexp prec emax m e l))
    = m / 2 ^ Z.max 0 (fexp prec emax (Zdigits2 m + e) - e) /\
  snd (shr_fexp prec emax m e l)
    = e + Z.max 0 (fexp prec emax (Zdigits2 m + e) - e).
Proof.
  intros Hm. unfold shr_fexp, shr.
  destruct (fexp prec emax (Zdigits2 m + e) - e) as [|p|p] eqn:En; cbn [fst snd].
  - rewrite shr_m_of_loc. change (Z.max 0 0) with 0. rewrite Z.div_1_r. split; lia.
  - rewrite shr_m_iter by (rewrite shr_m_of_loc; assumption).
    rewrite shr_m_of_loc. rewrite Z.max_r by lia. split; reflexivity.
  - rewrite shr_m_of_loc. rewrite Z.max_l by lia. rewrite Z.div_1_r. split; lia.
Qed.

Lemma round_nearest_even_bounds (m : Z) (l : location) :
  m <= round_nearest_even m l <= m + 1.
Proof.
  destruct l as [|[]]; simpl; try lia. destruct (Z.even m); lia.
Qed.

(** The result of [binary_round_aux] in terms of the two shifts and of the
    rounded mantissa [m2] between them. *)
Lemma binary_round_aux_spec (sx : bool) (mx ex : Z) (lx : location) :
  0 <= mx ->
  exists m2,
    mx / 2 ^ Z.max 0 (fexp prec emax (Zdigits2 mx + ex) - ex) <= m2 /\
    m2 <= mx / 2 ^ Z.max 0 (fexp prec emax (Zdigits2 mx + ex) - ex) + 1 /\
    binary_round_aux prec emax sx mx ex lx =
      let e1 := ex + Z.max 0 (fexp prec emax (Zdigits2 mx + ex) - ex) in
      let n2 := Z.max 0 (fexp prec emax (Zdigits2 m2 + e1) - e1) in
      match m2 / 2 ^ n2 with
      | Z0 => S754_zero sx
      | Zpos m => if e1 + n2 <=? 971 then S754_finite sx m (e1 + n2)
                  else S754_infinity sx
      | Zneg _ => S754_nan
      end.
Proof.
  intros Hm. unfold binary_round_aux.
  destruct (shr_fexp_spec mx ex lx Hm) as [M1 E1].
  destruct (shr_fexp prec emax mx ex lx) as [mrs' e'] eqn:S1. cbn [fst snd] in M1, E1.
  set (m2 := round_nearest_even (shr_m mrs') (loc_of_shr_record mrs')).
  pose proof (round_nearest_even_bounds (shr_m mrs') (loc_of_shr_record mrs')) as B.
  fold m2 in B. rewrite M1 in B.
  assert (H0 : 0 <= mx / 2 ^ Z.max 0 (fexp prec emax (Zdigits2 mx + ex) - ex)).
  { apply Z.div_pos; [assumption|]. apply Z.pow_pos_nonneg; lia. }
  exists m2. split; [lia|]. split; [lia|].
  destruct (shr_fexp_spec m2 e' loc_Exact) as [M2 E2]; [lia|].
  destruct (shr_fexp prec emax m2 e' loc_Exact) as [mrs'' e''] eqn:S2.
  cbn [fst snd] in M2, E2. cbv zeta. rewrite M2, E2, E1. reflexivity.
Qed.

Lemma pos_iter_xO (m d : positive) :
  Zpos (Pos.iter xO m d) = Zpos m * 2 ^ Zpos d.
Proof.
  induction d as [|d IH] using Pos.peano_ind.
  - simpl. lia.
  - rewrite Pos.iter_succ, Pos2Z.inj_xO, IH, Pos2Z.inj_succ, Z.pow_succ_r by lia. ring.
Qed.

Lemma digits2_pos_iter_xO (m d : positive) :
  Zpos (digits2_pos (Pos.iter xO m d)) = Zpos (digits2_pos m) + Zpos d.
Proof.
  induction d as [|d IH] using Pos.peano_ind.
  - simpl. lia.
  - rewrite Pos.iter_succ. simpl digits2_pos. rewrite Pos2Z.inj_succ, IH. lia.
Qed.

(** The alignment of [binary_round] keeps the value and the sum of digits
    and exponent, and leaves an exponent not above the target one. *)
Lemma shl_align_spec (mx : positive) (ex ex' : Z) :
  let '(mz, ez) := shl_align mx ex ex' in
  ez <= ex /\ (ex' <= ex -> ez = ex') /\ (ex <= ex' -> ez = ex) /\
  Zpos mz = Zpos mx * 2 ^ (ex - ez) /\
  Zpos (digits2_pos mz) + ez = Zpos (digits2_pos mx) + ex.
Proof.
  unfold shl_align. destruct (ex' - ex) as [|d|d] eqn:Ed.
  - replace (ex - ex) with 0 by lia. repeat split; lia.
  - replace (ex - ex) with 0 by lia. repeat split; lia.
  - assert (ex - ex' = Zpos d) by lia.
    rewrite pos_iter_xO, digits2_pos_iter_xO. repeat split; try lia.
    now replace (ex - ex') with (Zpos d).
Qed.

Lemma pow2_split (a b : Z) : 0 <= a -> 0 <= b -> 2 ^ (a + b) = 2 ^ a * 2 ^ b.
Proof. intros. now apply Z.pow_add_r. Qed.

Lemma pow2_pos (a : Z) : 0 <= a -> 0 < 2 ^ a.
Proof. intros. apply Z.pow_pos_nonneg; lia. Qed.

(** The second shift of [binary_round_aux] on a positive mantissa: it leaves
    a positive mantissa, at an exponent that is not smaller. *)
Lemma second_shift (p2 : positive) (E : Z) :
  -1074 <= E ->
  let n2 := Z.max 0 (fexp prec emax (Zdigits2 (Zpos p2) + E) - E) in
  n2 = Z.max 0 (Zpos (digits2_pos p2) - 53) /\
  0 < Zpos p2 / 2 ^ n2.
Proof.
  intros HE. cbv zeta. rewrite fexp_eq. cbn [Zdigits2].
  assert (Hn : Z.max 0 (Z.max (Zpos (digits2_pos p2) + E - 53) (-1074) - E)
               = Z.max 0 (Zpos (digits2_pos p2) - 53)) by lia.
  rewrite Hn. split; [reflexivity|].
  destruct (digits2_pos_bounds p2) as [L _].
  apply Z.lt_le_trans with 1; [lia|].
  apply Z.div_le_lower_bound; [apply pow2_pos; lia|].
  rewrite Z.mul_1_r.
  apply Z.le_trans with (2 ^ (Zpos (digits2_pos p2) - 1)); [|assumption].
  apply Z.pow_le_mono_r; lia.
Qed.

(** A lower bound on a rounded positive number: when the value [M * 2^ez]
    is at least the normal binary64 number [mc * 2^ec], so is its rounding.
    The values are compared after scaling by [2^-t]. *)
Lemma binary_round_ge (M : positive) (ez : Z) (mc : positive) (ec t : Z) :
  Zpos (digits2_pos mc) = 53 -> -1074 <= ec -> t <= ez -> t <= ec ->
  Zpos mc * 2 ^ (ec - t) <= Zpos M * 2 ^ (ez - t) ->
  exists o,
    SFcompare (S754_finite false mc ec) (binary_round prec emax false M ez) = Some o /\
    o <> Gt.
Proof.
  intros Hdc Hec Ht1 Ht2 Hle.
  set (d := Zpos (digits2_pos M)).
  destruct (digits2_pos_bounds mc) as [Lc _]. rewrite Hdc in Lc.
  destruct (digits2_pos_bounds M) as [LM UM]. fold d in LM, UM.
  assert (Hd : 52 + ec < d + ez).
  { destruct (Z.lt_ge_cases (52 + ec) (d + ez)) as [|G]; [assumption|]. exfalso.
    assert (Zpos M * 2 ^ (ez - t) < 2 ^ d * 2 ^ (ez - t)).
    { apply Z.mul_lt_mono_pos_r; [apply pow2_pos; lia | assumption]. }
    assert (2 ^ d * 2 ^ (ez - t) <= 2 ^ 52 * 2 ^ (ec - t)).
    { rewrite <- !pow2_split by lia. apply Z.pow_le_mono_r; lia. }
    assert (2 ^ 52 * 2 ^ (ec - t) <= Zpos mc * 2 ^ (ec - t)).
    { apply Z.mul_le_mono_nonneg_r; [apply Z.lt_le_incl, pow2_pos; lia | exact Lc]. }
    lia. }
  unfold binary_round.
  remember (fexp prec emax (Zpos (digits2_pos M) + ez)) as E eqn:HE0.
  assert (HE : E = Z.max (d + ez - 53) (-1074)) by (rewrite HE0; now rewrite fexp_eq).
  pose proof (shl_align_spec M ez E) as K.
  destruct (shl_align M ez E) as [M1 e1]. destruct K as (K1 & K2 & K3 & K4 & K5).
  fold d in K5.
  assert (He1 : e1 <= E) by lia.
  destruct (digits2_pos_bounds M1) as [LM1 _].
  destruct (binary_round_aux_spec false (Zpos M1) e1 loc_Exact) as (m2 & B1 & B2 & ->);
    [lia|].
  cbn [Zdigits2] in *. rewrite K5 in *. fold d in B1, B2 |- *.
  replace (fexp prec emax (d + ez)) with E in * by (rewrite HE0; reflexivity).
  replace (Z.max 0 (E - e1)) with (E - e1) in * by lia.
  replace (e1 + (E - e1)) with E by lia.
  assert (H1 : 1 <= Zpos M1 / 2 ^ (E - e1)).
  { apply Z.div_le_lower_bound; [apply pow2_pos; lia|]. rewrite Z.mul_1_r.
    apply Z.le_trans with (2 ^ (Zpos (digits2_pos M1) - 1)); [|assumption].
    apply Z.pow_le_mono_r; lia. }
  destruct m2 as [|p2|p2]; try lia.
  cbv zeta.
  destruct (second_shift p2 E) as [Hn2 H3]; [lia|]. cbv zeta in Hn2, H3.
  set (n2 := Z.max 0 (fexp prec emax (Zdigits2 (Zpos p2) + E) - E)) in *.
  destruct (Zpos p2 / 2 ^ n2) as [|p3|p3] eqn:E3; try lia.
  destruct (E + n2 <=? 971).
  2: { exists Lt. split; [reflexivity | discriminate]. }
  cbn [SFcompare].
  destruct (Z.compare_spec ec (E + n2)) as [Heq|Hlt|Hgt].
  - assert (HEc : E = ec) by lia. assert (Hn0 : n2 = 0) by lia.
    rewrite Hn0, Z.div_1_r in E3. injection E3 as <-.
    assert (Zpos mc <= Zpos M1 / 2 ^ (E - e1)).
    { apply Z.div_le_lower_bound; [apply pow2_pos; lia|].
      rewrite K4, Z.mul_comm, HEc.
      apply Z.mul_le_mono_pos_r with (2 ^ (e1 - t)); [apply pow2_pos; lia|].
      rewrite <- !Z.mul_assoc, <- !pow2_split by lia.
      replace (ec - e1 + (e1 - t)) with (ec - t) by lia.
      replace (ez - e1 + (e1 - t)) with (ez - t) by lia.
      exact Hle. }
    change (Pos.compare_cont Eq) with Pos.compare.
    destruct (Pos.compare_spec mc p2); eexists; split; try reflexivity;
      try discriminate. lia.
  - exists Lt. split; [reflexivity | discriminate].
  - lia.
Qed.

(** An upper bound: a positive value below 1 is rounded to at most 1. *)
Lemma binary_round_le_one (M : positive) (ez : Z) :
  ez <= 0 -> Zpos M < 2 ^ (- ez) ->
  exists o,
    SFcompare (binary_round prec emax false M ez)
              (S754_finite false 4503599627370496 (-52)) = Some o /\
    o <> Gt.
Proof.
  intros Hez HM.
  set (d := Zpos (digits2_pos M)).
  assert (Hd : d <= - ez) by (apply digits2_pos_le; [lia | assumption]).
  unfold binary_round.
  remember (fexp prec emax (Zpos (digits2_pos M) + ez)) as E eqn:HE0.
  assert (HE : E = Z.max (d + ez - 53) (-1074)) by (rewrite HE0; now rewrite fexp_eq).
  pose proof (shl_align_spec M ez E) as K.
  destruct (shl_align M ez E) as [M1 e1]. destruct K as (K1 & K2 & K3 & K4 & K5).
  fold d in K5.
  assert (He1 : e1 <= E) by lia.
  destruct (digits2_pos_bounds M1) as [_ UM1].
  destruct (binary_round_aux_spec false (Zpos M1) e1 loc_Exact) as (m2 & B1 & B2 & ->);
    [lia|].
  cbn [Zdigits2] in *. rewrite K5 in *. fold d in B1, B2 |- *.
  replace (fexp prec emax (d + ez)) with E in * by (rewrite HE0; reflexivity).
  replace (Z.max 0 (E - e1)) with (E - e1) in * by lia.
  replace (e1 + (E - e1)) with E by lia.
  assert (H1 : Zpos M1 / 2 ^ (E - e1) < 2 ^ 53).
  { apply Z.div_lt_upper_bound; [apply pow2_pos; lia|].
    rewrite <- pow2_split by lia.
    apply Z.lt_le_trans with (2 ^ Zpos (digits2_pos M1)); [assumption|].
    apply Z.pow_le_mono_r; lia. }
  assert (H0 : 0 <= Zpos M1 / 2 ^ (E - e1)).
  { apply Z.div_pos; [lia | apply pow2_pos; lia]. }
  cbv zeta.
  destruct m2 as [|p2|p2]; try lia.
  - rewrite Z.div_0_l by (apply Z.pow_nonzero; lia). exists Lt.
    split; [reflexivity | discriminate].
  - destruct (second_shift p2 E) as [Hn2 H3]; [lia|]. cbv zeta in Hn2, H3.
    set (n2 := Z.max 0 (fexp prec emax (Zdigits2 (Zpos p2) + E) - E)) in *.
    assert (Hd2 : Zpos (digits2_pos p2) <= 54).
    { apply digits2_pos_le; [lia|]. change (2 ^ 54) with (2 * 2 ^ 53). lia. }
    destruct (Z.eq_dec (Zpos p2) (2 ^ 53)) as [Hp|Hp].
    + assert (Hn : n2 = 1).
      { rewrite Hn2. injection Hp as ->. reflexivity. }
      rewrite Hn, Hp. change (2 ^ 53 / 2 ^ 1) with 4503599627370496.
      replace (E + 1 <=? 971) with true by (symmetry; apply Z.leb_le; lia).
      cbn [SFcompare].
      destruct (Z.compare_spec (E + 1) (-52)); try lia;
        eexists; split; try reflexivity; discriminate.
    + assert (Hn : n2 = 0).
      { rewrite Hn2. assert (Zpos (digits2_pos p2) <= 53); [|lia].
        apply digits2_pos_le; lia. }
      rewrite Hn, Z.div_1_r, Z.add_0_r.
      replace (E <=? 971) with true by (symmetry; apply Z.leb_le; lia).
      cbn [SFcompare].
      destruct (Z.compare_spec E (-52)); try lia.
      exists Lt. split; [reflexivity | discriminate].
Qed.

Lemma bounded_mantissa (m : positive) (e : Z) :
  bounded prec emax m e = true -> Zpos m < 2 ^ 53 /\ -1074 <= e.
Proof.
  unfold bounded, canonical_mantissa. intros H.
  apply andb_prop in H. destruct H as [H _]. apply Z.eqb_eq in H.
  rewrite fexp_eq in H. destruct (digits2_pos_bounds m) as [_ U].
  split; [|lia].
  apply Z.lt_le_trans with (2 ^ Zpos (digits2_pos m)); [assumption|].
  apply Z.pow_le_mono_r; lia.
Qed.

(** The operands of [1 - v], aligned on the smaller exponent. *)
Lemma align_one (m : positive) (e : Z) :
  let ez := Z.min (-52) e in
  Zpos (fst (shl_align 4503599627370496 (-52) ez)) = 2 ^ (- ez) /\
  Zpos (fst (shl_align m e ez)) = Zpos m * 2 ^ (e - ez).
Proof.
  cbv zeta. split.
  - pose proof (shl_align_spec 4503599627370496 (-52) (Z.min (-52) e)) as K.
    destruct (shl_align 4503599627370496 (-52) (Z.min (-52) e)) as [mz ez'].
    destruct K as (_ & K2 & _ & K4 & _). cbn [fst]. rewrite K4, K2 by lia.
    change 4503599627370496 with (2 ^ 52). rewrite <- pow2_split by lia.
    f_equal. lia.
  - pose proof (shl_align_spec m e (Z.min (-52) e)) as K.
    destruct (shl_align m e (Z.min (-52) e)) as [mz ez'].
    destruct K as (_ & K2 & _ & K4 & _). cbn [fst]. rewrite K4, K2 by lia.
    reflexivity.
Qed.

Lemma below_005 (m : positive) (e : Z) :
  bounded prec emax m e = true ->
  SFltb (S754_finite false m e) (S754_finite false 7205759403792794 (-57)) = true ->
  e <= -57 /\ Zpos m * 2 ^ 53 <= 2 ^ (- e) * 450359962737050.
Proof.
  intros V H. apply bounded_mantissa in V. destruct V as [Vm Ve].
  unfold SFltb in H. cbn [SFcompare] in H.
  change (Pos.compare_cont Eq) with Pos.compare in H.
  rewrite Pos2Z.inj_compare in H.
  destruct (Z.compare_spec e (-57)) as [He|He|He]; try discriminate.
  - destruct (Z.compare_spec (Zpos m) 7205759403792794) as [Hm|Hm|Hm];
      try discriminate.
    split; [lia|]. subst e. change (2 ^ (- -57)) with 144115188075855872.
    change (2 ^ 53) with 9007199254740992. lia.
  - split; [lia|].
    replace (- e) with (58 + (- e - 58)) by lia. rewrite pow2_split by lia.
    assert (1 <= 2 ^ (- e - 58)) by (pose proof (pow2_pos (- e - 58)); lia).
    change (2 ^ 58) with 288230376151711744. change (2 ^ 53) with 9007199254740992 in *.
    nia.
Qed.

Lemma SFsub_one_ge (s : bool) (m : positive) (e : Z) :
  bounded prec emax m e = true ->
  SFltb (S754_finite s m e) (S754_finite false 7205759403792794 (-57)) = true ->
  exists o,
    SFcompare (S754_finite false 8556839292003942 (-53))
              (SF64sub (S754_finite false 4503599627370496 (-52)) (S754_finite s m e))
      = Some o /\ o <> Gt.
Proof.
  intros V H. unfold SF64sub, SFsub. cbv zeta.
  change (IntDef.Z.min (-52) e) with (Z.min (-52) e).
  destruct (align_one m e) as [A B]. cbv zeta in A, B. rewrite A, B.
  cbn [cond_Zopp].
  assert (HB : 0 < Zpos m * 2 ^ (e - Z.min (-52) e)).
  { apply Z.mul_pos_pos; [lia | apply pow2_pos; lia]. }
  destruct s; cbn [cond_Zopp].
  - (* a negative operand: the value is above 1 *)
    destruct (2 ^ (- Z.min (-52) e) - - (Zpos m * 2 ^ (e - Z.min (-52) e)))
      as [|M|M] eqn:EM;
      try (pose proof (pow2_pos (- Z.min (-52) e)); lia).
    cbn [binary_normalize].
    apply binary_round_ge with (t := Z.min (-52) e - 1); try reflexivity; try lia.
    rewrite <- EM.
    replace (Z.min (-52) e - (Z.min (-52) e - 1)) with 1 by lia.
    replace (-53 - (Z.min (-52) e - 1)) with (- Z.min (-52) e - 52) by lia.
    replace (- Z.min (-52) e) with (52 + (- Z.min (-52) e - 52)) at 2 by lia.
    rewrite pow2_split by lia.
    pose proof (pow2_pos (- Z.min (-52) e - 52)).
    change (2 ^ 52) with 4503599627370496. change (2 ^ 1) with 2. nia.
  - destruct (below_005 m e V H) as [He Hm].
    replace (Z.min (-52) e) with e in * by lia.
    replace (e - e) with 0 in * by lia. rewrite Z.mul_1_r in *.
    assert (Hlt : Zpos m * 2 ^ 53 < 2 ^ (- e) * 2 ^ 53).
    { change (2 ^ 53) with 9007199254740992 in *.
      pose proof (pow2_pos (- e)). nia. }
    apply Z.mul_lt_mono_pos_r in Hlt; [|reflexivity].
    destruct (2 ^ (- e) - Zpos m) as [|M|M] eqn:EM; try lia.
    cbn [binary_normalize].
    apply binary_round_ge with (t := e); try reflexivity; try lia.
    rewrite <- EM. replace (e - e) with 0 by lia. rewrite Z.mul_1_r.
    replace (- e) with (53 + (-53 - e)) in * by lia.
    rewrite pow2_split in * by lia.
    pose proof (pow2_pos (-53 - e)).
    change (2 ^ 53) with 9007199254740992 in *. nia.
Qed.

Lemma SFsub_one_le (m : positive) (e : Z) :
  bounded prec emax m e = true ->
  SFltb (S754_finite false m e) (S754_finite false 7205759403792794 (-57)) = true ->
  exists o,
    SFcompare (SF64sub (S754_finite false 4503599627370496 (-52)) (S754_finite false m e))
              (S754_finite false 4503599627370496 (-52))
      = Some o /\ o <> Gt.
Proof.
  intros V H. unfold SF64sub, SFsub. cbv zeta.
  change (IntDef.Z.min (-52) e) with (Z.min (-52) e).
  destruct (align_one m e) as [A B]. cbv zeta in A, B. rewrite A, B.
  cbn [cond_Zopp].
  destruct (below_005 m e V H) as [He Hm].
  replace (Z.min (-52) e) with e in * by lia.
  replace (e - e) with 0 in * by lia. rewrite Z.mul_1_r in *.
  assert (Hlt : Zpos m * 2 ^ 53 < 2 ^ (- e) * 2 ^ 53).
  { change (2 ^ 53) with 9007199254740992 in *.
    pose proof (pow2_pos (- e)). nia. }
  apply Z.mul_lt_mono_pos_r in Hlt; [|reflexivity].
  destruct (2 ^ (- e) - Zpos m) as [|M|M] eqn:EM; try lia.
  cbn [binary_normalize].
  apply binary_round_le_one; lia.
Qed.

(** ** Signs *)

Lemma binary_round_aux_sign (sx : bool) (mx ex : Z) (lx : location) :
  SFsign_is sx (binary_round_aux prec emax sx mx ex lx).
Proof.
  unfold binary_round_aux.
  destruct (shr_fexp prec emax mx ex lx) as [mrs' e'].
  destruct (shr_fexp prec emax _ e' loc_Exact) as [mrs'' e''].
  destruct (shr_m mrs''); simpl; auto.
  destruct (e'' <=? _); simpl; auto.
Qed.

Lemma binary_round_sign (sx : bool) (m : positive) (e : Z) :
  SFsign_is sx (binary_round prec emax sx m e).
Proof.
  unfold binary_round. destruct (shl_align m e _). apply binary_round_aux_sign.
Qed.

Lemma binary_normalize_sign (m e : Z) :
  0 <= m -> SFsign_is false (binary_normalize prec emax m e false).
Proof.
  intros Hm. destruct m as [|p|p]; simpl; try lia; auto.
  apply binary_round_sign.
Qed.

Lemma SFmul_self_sign (a : spec_float) : SFsign_is false (SF64mul a a).
Proof.
  destruct a as [s|s| |s m e]; simpl; auto; try (now destruct s).
  replace (xorb s s) with false by (now destruct s).
  apply binary_round_aux_sign.
Qed.

Lemma SFadd_sign (a b : spec_float) :
  SFsign_is false a -> SFsign_is false b -> SFsign_is false (SF64add a b).
Proof.
  destruct a as [sa|sa| |sa ma ea], b as [sb|sb| |sb mb eb]; simpl;
    intros Ha Hb; subst; simpl; auto.
  apply binary_round_sign.
Qed.

Lemma SFdiv_sign (a b : spec_float) :
  SFsign_is false a -> SFsign_is false b -> SFsign_is false (SF64div a b).
Proof.
  destruct a as [sa|sa| |sa ma ea], b as [sb|sb| |sb mb eb]; simpl;
    intros Ha Hb; subst; simpl; auto.
  destruct (SFdiv_core_binary prec emax (Zpos ma) ea (Zpos mb) eb) as [[mz ez] lz].
  apply binary_round_aux_sign.
Qed.

Lemma SFsign_leb (a : spec_float) :
  SFsign_is false a -> a <> S754_nan -> SFleb (S754_zero false) a = true.
Proof.
  destruct a as [s|s| |s m e]; cbn [SFsign_is]; intros Ha Hn; subst;
    try reflexivity. congruence.
Qed.

(** A number that is zero or NaN multiplied by anything, and anything
    divided by it, is not finite or is zero, resp. not finite. *)
Lemma SFmul_zero_l (s : bool) (b : spec_float) :
  match SF64mul (S754_zero s) b with
  | S754_zero _ | S754_nan => True
  | _ => False
  end.
Proof. destruct b; simpl; auto. Qed.

Lemma SFmul_zero_r (s : bool) (a : spec_float) :
  match SF64mul a (S754_zero s) with
  | S754_zero _ | S754_nan => True
  | _ => False
  end.
Proof. destruct a; simpl; auto. Qed.

Lemma SFdiv_zero (a b : spec_float) :
  match b with S754_zero _ | S754_nan => True | _ => False end ->
  SFnot_finite (SF64div a b).
Proof. destruct a, b; simpl; tauto. Qed.

Lemma SFeqb_zero (a : spec_float) :
  SFeqb a (S754_zero false) = true -> exists s, a = S754_zero s.
Proof.
  destruct a as [s|s| |s m e]; unfold SFeqb; simpl; try discriminate; eauto;
    destruct s; discriminate.
Qed.

Lemma SFnot_finite_ltb (a : spec_float) :
  SFnot_finite a ->
  SFltb (S754_finite false 7205759403792794 (-53)) a = false ->
  SFltb (S754_finite false 5404319552844595 (-53)) a = false /\
  SFltb (S754_finite false 6305039478318694 (-54)) a = false.
Proof.
  destruct a as [s|s| |s m e]; cbn [SFnot_finite]; try tauto; intros _;
    try destruct s; unfold SFltb; cbn [SFcompare]; intros H; auto; discriminate.
Qed.

End Binary64.

(** ** Arithmetic of the scores *)

Lemma Prim2SF_one : Prim2SF 1 = S754_finite false 4503599627370496 (-52).
Proof. vm_compute. reflexivity. Qed.

Lemma Prim2SF_zero : Prim2SF 0 = S754_zero false.
Proof. vm_compute. reflexivity. Qed.

Lemma Prim2SF_005 : Prim2SF 0.05 = S754_finite false 7205759403792794 (-57).
Proof. vm_compute. reflexivity. Qed.

Lemma Prim2SF_095 : Prim2SF 0.95 = S754_finite false 8556839292003942 (-53).
Proof. vm_compute. reflexivity. Qed.

(** [1 - v] is at least 0.95 when [v < 0.05]. *)
Lemma sub_one_ge (v : float) :
  PrimFloat.ltb v 0.05 = true -> PrimFloat.leb 0.95 (1 - v) = true.
Proof.
  intros H. apply leb_compare. rewrite FloatAxioms.sub_spec, Prim2SF_one, Prim2SF_095.
  rewrite FloatAxioms.ltb_spec, Prim2SF_005 in H.
  pose proof (Prim2SF_valid v) as V.
  destruct (Prim2SF v) as [s|s| |s m e].
  - exists Lt. split; [reflexivity | discriminate].
  - destruct s; [|discriminate H]. exists Lt. split; [reflexivity | discriminate].
  - discriminate H.
  - apply SFsub_one_ge; assumption.
Qed.

(** [1 - v] is at most 1 when [0 <= v < 0.05]. *)
Lemma sub_one_le (v : float) :
  PrimFloat.ltb v 0.05 = true -> PrimFloat.leb 0 v = true ->
  PrimFloat.leb (1 - v) 1 = true.
Proof.
  intros H H0. apply leb_compare. rewrite FloatAxioms.sub_spec, Prim2SF_one.
  rewrite FloatAxioms.ltb_spec, Prim2SF_005 in H.
  rewrite FloatAxioms.leb_spec, Prim2SF_zero in H0.
  pose proof (Prim2SF_valid v) as V.
  destruct (Prim2SF v) as [s|s| |s m e].
  - exists Eq. split; [reflexivity | discriminate].
  - destruct s; [discriminate H0 | discriminate H].
  - discriminate H.
  - destruct s; [discriminate H0|]. apply SFsub_one_le; assumption.
Qed.

(** Squares, their sums and their quotients by a length are not negative. *)
Lemma mul_self_sign (a : float) : SFsign_is false (Prim2SF (a * a)).
Proof. rewrite FloatAxioms.mul_spec. apply SFmul_self_sign. Qed.

Lemma add_sign (a b : float) :
  SFsign_is false (Prim2SF a) -> SFsign_is false (Prim2SF b) ->
  SFsign_is false (Prim2SF (a + b)).
Proof. rewrite FloatAxioms.add_spec. apply SFadd_sign. Qed.

Lemma div_sign (a b : float) :
  SFsign_is false (Prim2SF a) -> SFsign_is false (Prim2SF b) ->
  SFsign_is false (Prim2SF (a / b)).
Proof. rewrite FloatAxioms.div_spec. apply SFdiv_sign. Qed.

Lemma lengthF_sign {A : Type} (l : list A) : SFsign_is false (Prim2SF (lengthF l)).
Proof.
  unfold lengthF. rewrite FloatAxioms.of_uint63_spec. apply binary_normalize_sign.
  apply Uint63.to_Z_bounded.
Qed.

Lemma sum_squares_sign {A : Type} (f : A -> float) (l : list A) :
  forall acc,
    SFsign_is false (Prim2SF acc) ->
    SFsign_is false (Prim2SF (fold_left (fun a p => a + f p * f p) l acc)).
Proof.
  induction l as [|p l IH]; intros acc Hacc; simpl; [assumption|].
  apply IH. apply add_sign; [assumption | apply mul_self_sign].
Qed.

Lemma normalizedVariance_sign (originalPoints : list Point) :
  SFsign_is false (Prim2SF (normalizedVariance originalPoints)).
Proof.
  unfold normalizedVariance, radiusVariance.
  apply div_sign; [|apply mul_self_sign].
  apply div_sign; [|apply lengthF_sign].
  apply (sum_squares_sign
           (fun p => getDistance p (center originalPoints) - avgRadius originalPoints)).
  now rewrite Prim2SF_zero.
Qed.

Lemma normalizedVariance_nonneg (originalPoints : list Point) :
  PrimFloat.ltb (normalizedVariance originalPoints) 0.05 = true ->
  PrimFloat.leb 0 (normalizedVariance originalPoints) = true.
Proof.
  intros H. rewrite FloatAxioms.leb_spec, Prim2SF_zero.
  apply SFsign_leb; [apply normalizedVariance_sign|].
  intros Hn. rewrite FloatAxioms.ltb_spec, Hn in H. discriminate H.
Qed.

(** The score of a circle lies between 0.95 and 1. *)
Lemma circle_score_bounds (originalPoints : list Point) :
  PrimFloat.ltb (normalizedVariance originalPoints) 0.05 = true ->
  PrimFloat.leb 0.95 (1 - normalizedVariance originalPoints) = true /\
  PrimFloat.leb (1 - normalizedVariance originalPoints) 1 = true.
Proof.
  intros H. split; [now apply sub_one_ge|].
  apply sub_one_le; [assumption | now apply normalizedVariance_nonneg].
Qed.

(** ** Results by stage *)

Lemma classify_stage (originalPoints : list Point) (start end_ : Point)
    (lin : float) (vCount : nat) :
  linearity originalPoints = Returns lin ->
  stage_result originalPoints (classify originalPoints start end_ lin vCount).
Proof.
  intros L. unfold classify.
  destruct (PrimFloat.ltb 0.94 lin) eqn:E1; [now apply by_line|].
  cbv zeta.
  destruct (PrimFloat.ltb 0.80 (fillRatio originalPoints)) eqn:E2; [now apply by_fill|].
  destruct (vCount =? 3)%nat; [now apply by_three_vertices|].
  destruct ((4 <=? vCount)%nat && (vCount <=? 6)%nat);
    [now apply by_four_to_six_vertices|].
  destruct (PrimFloat.ltb (normalizedVariance originalPoints) 0.05) eqn:E3;
    destruct (PrimFloat.ltb 0.6 (fillRatio originalPoints)) eqn:E4; cbn [andb];
    try (now apply by_circularity);
    (destruct (PrimFloat.ltb 0.35 (fillRatio originalPoints)) eqn:E5;
     destruct (PrimFloat.ltb (fillRatio originalPoints) 0.65) eqn:E6; cbn [andb];
     try (now apply by_fuzzy_fill); apply by_default).
Qed.

Lemma analyzeShape_stage (originalPoints : list Point) :
  exists r, analyzeShape originalPoints = Returns r /\ stage_result originalPoints r.
Proof.
  destruct (Nat.lt_ge_cases (length originalPoints) 10) as [Hs|Hl].
  - rewrite analyzeShape_short by assumption. eexists. split; [reflexivity|].
    apply by_default.
  - destruct (analyzeShape_stages originalPoints Hl) as (s & e & vs & _ & _ & L & _ & ->).
    eexists. split; [reflexivity|]. now apply classify_stage.
Qed.

(** ** Degenerate bounding boxes *)

Lemma Prim2SF_080 : Prim2SF 0.80 = S754_finite false 7205759403792794 (-53).
Proof. vm_compute. reflexivity. Qed.

Lemma Prim2SF_06 : Prim2SF 0.6 = S754_finite false 5404319552844595 (-53).
Proof. vm_compute. reflexivity. Qed.

Lemma Prim2SF_035 : Prim2SF 0.35 = S754_finite false 6305039478318694 (-54).
Proof. vm_compute. reflexivity. Qed.

Lemma eqb_zero (a : float) :
  PrimFloat.eqb a 0 = true -> exists s, Prim2SF a = S754_zero s.
Proof.
  rewrite FloatAxioms.eqb_spec, Prim2SF_zero. apply SFeqb_zero.
Qed.

(** With a zero width or a zero height the fill ratio is a division by zero
    (or by NaN): it is NaN or an infinity. *)
Lemma fillRatio_degenerate (originalPoints : list Point) :
  PrimFloat.eqb (width originalPoints) 0 = true \/
  PrimFloat.eqb (height originalPoints) 0 = true ->
  SFnot_finite (Prim2SF (fillRatio originalPoints)).
Proof.
  intros H. unfold fillRatio. rewrite FloatAxioms.div_spec. apply SFdiv_zero.
  rewrite FloatAxioms.mul_spec.
  destruct H as [H|H]; apply eqb_zero in H; destruct H as [s ->].
  - apply SFmul_zero_l.
  - apply SFmul_zero_r.
Qed.

Lemma not_finite_flags (a : float) :
  SFnot_finite (Prim2SF a) -> PrimFloat.is_nan a || PrimFloat.is_infinity a = true.
Proof.
  unfold PrimFloat.is_nan, PrimFloat.is_infinity.
  rewrite !FloatAxioms.eqb_spec, FloatAxioms.abs_spec.
  replace (Prim2SF PrimFloat.infinity) with (S754_infinity false)
    by (vm_compute; reflexivity).
  destruct (Prim2SF a) as [s|s| |s m e]; cbn [SFnot_finite]; try tauto; intros _;
    try destruct s; reflexivity.
Qed.

Lemma fillRatio_degenerate_tests (originalPoints : list Point) :
  PrimFloat.eqb (width originalPoints) 0 = true \/
  PrimFloat.eqb (height originalPoints) 0 = true ->
  PrimFloat.ltb 0.80 (fillRatio originalPoints) = false ->
  PrimFloat.ltb 0.6 (fillRatio originalPoints) = false /\
  PrimFloat.ltb 0.35 (fillRatio originalPoints) = false.
Proof.
  intros H. apply fillRatio_degenerate in H.
  rewrite !FloatAxioms.ltb_spec, Prim2SF_080, Prim2SF_06, Prim2SF_035.
  now apply SFnot_finite_ltb.
Qed.

(** ** The store *)

Lemma extends_refl (h : Store.heap) : extends h h.
Proof. exists []. now rewrite app_nil_r. Qed.

Lemma extends_trans (h1 h2 h3 : Store.heap) :
  extends h1 h2 -> extends h2 h3 -> extends h1 h3.
Proof. intros [e1 ->] [e2 ->]. exists (e1 ++ e2). now rewrite app_assoc. Qed.

Lemma extends_length (h h' : Store.heap) : extends h h' -> (length h <= length h')%nat.
Proof. intros [ext ->]. rewrite length_app. lia. Qed.

Lemma extends_snoc (h : Store.heap) (v : list Point) : extends h (h ++ [v]).
Proof. now exists [v]. Qed.

Lemma extends_lookup (h h' : Store.heap) (a : Store.addr) (v : list Point) :
  extends h h' -> nth_error h a = Some v -> nth_error h' a = Some v.
Proof.
  intros [ext ->] H. rewrite nth_error_app1; [assumption|].
  apply nth_error_Some. congruence.
Qed.

Lemma lookup_snoc (h : Store.heap) (v : list Point) :
  nth_error (h ++ [v]) (length h) = Some v.
Proof. rewrite nth_error_app2 by lia. now rewrite Nat.sub_diag. Qed.

Lemma store_last (h : Store.heap) (v w : list Point) :
  Store.store (length h) w (h ++ [v]) = Returns (tt, h ++ [w]).
Proof.
  unfold Store.store. rewrite length_app. simpl length.
  replace (length h <? length h + 1)%nat with true by (symmetry; apply Nat.ltb_lt; lia).
  rewrite firstn_app, Nat.sub_diag, firstn_all. simpl firstn. rewrite app_nil_r.
  rewrite skipn_all2 by (rewrite length_app; simpl; lia). reflexivity.
Qed.

Section Run.

Context {B : Type} (h : Store.heap) (a : Store.addr) (v : list Point)
        (Ha : nth_error h a = Some v).

Lemma run_load (k : list Point -> Store.prog B) :
  Store.bind (Store.load a) k h = k v h.
Proof. unfold Store.bind, Store.load. now rewrite Ha. Qed.

Lemma run_lengthA (k : nat -> Store.prog B) :
  Store.bind (Store.lengthA a) k h = k (length v) h.
Proof. unfold Store.lengthA, Store.bind, Store.load, Store.ret. now rewrite Ha. Qed.

Lemma run_getA (i : nat) (p : Point) (k : Point -> Store.prog B) :
  nth_error v i = Some p -> Store.bind (Store.getA a i) k h = k p h.
Proof.
  intros Hi. unfold Store.getA, Store.bind, Store.load, Store.fail, get.
  now rewrite Ha, Hi.
Qed.

Lemma run_sliceA (from to : nat) (k : Store.addr -> Store.prog B) :
  Store.bind (Store.sliceA a from to) k h = k (length h) (h ++ [slice from to v]).
Proof. unfold Store.sliceA, Store.bind, Store.load, Store.new. now rewrite Ha. Qed.

Lemma run_spreadA (k : Store.addr -> Store.prog B) :
  Store.bind (Store.spreadA a) k h = k (length h) (h ++ [v]).
Proof. unfold Store.spreadA, Store.bind, Store.load, Store.new. now rewrite Ha. Qed.

End Run.

Lemma run_concatA (h : Store.heap) (a b : Store.addr) (va vb : list Point) :
  nth_error h a = Some va -> nth_error h b = Some vb ->
  Store.concatA a b h = Returns (length h, h ++ [va ++ vb]).
Proof.
  intros Ha Hb. unfold Store.concatA, Store.bind, Store.load, Store.new.
  now rewrite Ha, Hb.
Qed.

Lemma run_popA_last (h : Store.heap) (v : list Point) :
  Store.popA (length h) (h ++ [v]) = Returns (tt, h ++ [removelast v]).
Proof.
  unfold Store.popA, Store.bind, Store.load. rewrite lookup_snoc. apply store_last.
Qed.

Lemma Store_rdp_eq (fuel : nat) (points : Store.addr) (epsilon : float) :
  Store.rdp fuel points epsilon =
  Store.bind (Store.lengthA points) (fun n =>
  if (n <? 3)%nat then Store.ret points else
  match fuel with
  | O => Store.fail OutOfFuel
  | S fuel' =>
      let end_ := (n - 1)%nat in
      Store.bind (Store.getA points 0) (fun first =>
      Store.bind (Store.getA points end_) (fun last =>
      Store.bind (Store.load points) (fun v =>
      let '(dmax, index) := rdp_scan first last (slice 1 end_ v) 1 0 0%nat in
      if PrimFloat.ltb epsilon dmax then
        Store.bind (Store.sliceA points 0 (index + 1)) (fun s1 =>
        Store.bind (Store.rdp fuel' s1 epsilon) (fun recResults1 =>
        Store.bind (Store.sliceA points index (end_ + 1)) (fun s2 =>
        Store.bind (Store.rdp fuel' s2 epsilon) (fun recResults2 =>
        Store.bind (Store.lengthA recResults1) (fun n1 =>
        Store.bind (Store.sliceA recResults1 0 (n1 - 1)) (fun s3 =>
        Store.concatA s3 recResults2))))))
      else Store.new [first; last])))
  end).
Proof. destruct fuel; reflexivity. Qed.

(** The simplifier over the store computes what the simplifier on lists
    does, in an array of a store that has only grown; on three points or
    more it has allocated. *)
Lemma Store_rdp_refines (fuel : nat) :
  forall (h : Store.heap) (a : Store.addr) (pts : list Point) (epsilon : float)
         (r : list Point),
    nth_error h a = Some pts ->
    rdp fuel pts epsilon = Returns r ->
    exists b h',
      Store.rdp fuel a epsilon h = Returns (b, h') /\
      extends h h' /\ nth_error h' b = Some r /\
      ((3 <= length pts)%nat -> (length h < length h')%nat).
Proof.
  induction fuel as [|fuel IH]; intros h a pts epsilon r Ha H;
    apply rdp_cases in H;
    destruct H as [[Hs ->]|(fuel' & first & last & dmax & index & Hf & Hlen & H0 & H1 & Hscan & H)];
    try discriminate;
    rewrite Store_rdp_eq, (run_lengthA h a pts Ha).
  - pose proof Hs as Hs'. apply Nat.ltb_lt in Hs. rewrite Hs. exists a, h.
    split; [reflexivity|]. split; [apply extends_refl|]. split; [assumption | lia].
  - pose proof Hs as Hs'. apply Nat.ltb_lt in Hs. rewrite Hs. exists a, h.
    split; [reflexivity|]. split; [apply extends_refl|]. split; [assumption | lia].
  - injection Hf as <-.
    replace (length pts <? 3)%nat with false by (symmetry; apply Nat.ltb_ge; lia).
    cbv zeta.
    rewrite (run_getA h a pts Ha 0 first) by assumption.
    rewrite (run_getA h a pts Ha (length pts - 1) last) by assumption.
    rewrite (run_load h a pts Ha). rewrite Hscan.
    destruct H as [[-> ->]|(-> & r1 & r2 & R1 & R2 & ->)].
    + exists (length h), (h ++ [[first; last]]).
      split; [reflexivity|]. split; [apply extends_snoc|].
      split; [apply lookup_snoc|]. rewrite length_app. simpl. lia.
    + rewrite (run_sliceA h a pts Ha).
      destruct (IH _ (length h) _ epsilon r1 (lookup_snoc h _) R1)
        as (b1 & h1 & E1 & X1 & L1 & _).
      unfold Store.bind at 1. rewrite E1.
      assert (Xh1 : extends h h1) by (eapply extends_trans; [apply extends_snoc | exact X1]).
      rewrite (run_sliceA h1 a pts (extends_lookup h h1 a pts Xh1 Ha)).
      destruct (IH _ (length h1) _ epsilon r2 (lookup_snoc h1 _) R2)
        as (b2 & h2 & E2 & X2 & L2 & _).
      unfold Store.bind at 1. rewrite E2.
      assert (X12 : extends h1 h2) by (eapply extends_trans; [apply extends_snoc | exact X2]).
      pose proof (extends_lookup h1 h2 b1 r1 X12 L1) as L1'.
      rewrite (run_lengthA h2 b1 r1 L1').
      rewrite (run_sliceA h2 b1 r1 L1').
      rewrite (run_concatA (h2 ++ [slice 0 (length r1 - 1) r1]) (length h2) b2
                 (slice 0 (length r1 - 1) r1) r2);
        [|apply lookup_snoc | eapply extends_lookup; [apply extends_snoc | exact L2]].
      eexists _, _. split; [reflexivity|].
      assert (X : extends h (h2 ++ [slice 0 (length r1 - 1) r1])).
      { eapply extends_trans; [exact Xh1|]. eapply extends_trans; [exact X12|].
        apply extends_snoc. }
      split; [eapply extends_trans; [exact X | apply extends_snoc]|].
      split; [apply lookup_snoc|].
      intros _. apply extends_length in X. rewrite length_app. simpl. lia.
Qed.

Lemma mergeClosed_eq (originalPoints simplified : list Point) (s0 sl start end_ : Point) :
  nth_error simplified 0 = Some s0 ->
  nth_error simplified (length simplified - 1) = Some sl ->
  nth_error originalPoints 0 = Some start ->
  nth_error originalPoints (length originalPoints - 1) = Some end_ ->
  mergeClosed originalPoints simplified =
  Returns
    (if (PrimFloat.ltb (getDistance s0 sl) (diag originalPoints * 0.15)
         || PrimFloat.ltb (getDistance start end_) (diag originalPoints * 0.15))
        && (3 <? length simplified)%nat
        && PrimFloat.ltb (getDistance s0 sl) (epsilonOf originalPoints * 2)
     then removelast simplified else simplified).
Proof.
  intros S0 S1 O0 O1. unfold mergeClosed, get. rewrite S0, S1, O0, O1. cbn [bind].
  destruct (_ && (3 <? length simplified)%nat); cbn [andb bind]; [|reflexivity].
  destruct (PrimFloat.ltb (getDistance s0 sl) _); reflexivity.
Qed.

Lemma vertices_inv (originalPoints vs : list Point) :
  vertices originalPoints = Returns vs ->
  exists simplified,
    ramerDouglasPeucker originalPoints (epsilonOf originalPoints) = Returns simplified /\
    mergeClosed originalPoints simplified = Returns vs.
Proof.
  unfold vertices. destruct (ramerDouglasPeucker _ _) as [s| |]; cbn [bind];
    try discriminate. eauto.
Qed.

(** The closed-loop merge over the store: the copy [vertices], at the fresh
    address [length h], is the only array written to. *)
Lemma run_merge {B : Type} (h : Store.heap) (simplified : list Point) (s0 sl : Point)
    (cond : bool) (close : Point -> Point -> bool) (k : unit -> Store.prog B) :
  nth_error simplified 0 = Some s0 ->
  nth_error simplified (length simplified - 1) = Some sl ->
  Store.bind
    (if cond then
       Store.bind (Store.getA (length h) 0) (fun v0 =>
       Store.bind (Store.getA (length h) (length simplified - 1)) (fun vl =>
       if close v0 vl then Store.popA (length h) else Store.ret tt))
     else Store.ret tt) k (h ++ [simplified])
  = k tt (h ++ [if cond && close s0 sl then removelast simplified else simplified]).
Proof.
  intros S0 S1. destruct cond; cbn [andb]; [|reflexivity].
  unfold Store.bind at 1.
  rewrite (run_getA (h ++ [simplified]) (length h) simplified (lookup_snoc h _) 0 s0)
    by assumption.
  rewrite (run_getA (h ++ [simplified]) (length h) simplified (lookup_snoc h _) _ sl)
    by assumption.
  destruct (close s0 sl); [now rewrite run_popA_last | reflexivity].
Qed.

(** The classifier over the store returns what the classifier on lists
    does, in a store that has only grown. *)
Theorem Store_analyzeShape_refines (h : Store.heap) (a : Store.addr) (pts : list Point) :
  nth_error h a = Some pts ->
  exists r h',
    analyzeShape pts = Returns r /\
    Store.analyzeShape a h = Returns (r, h') /\
    extends h h'.
Proof.
  intros Ha. unfold Store.analyzeShape. rewrite (run_lengthA h a pts Ha).
  destruct (Nat.lt_ge_cases (length pts) 10) as [Hs|Hl].
  { rewrite analyzeShape_short by assumption. apply Nat.ltb_lt in Hs. rewrite Hs.
    eexists _, h. split; [reflexivity|]. split; [reflexivity | apply extends_refl]. }
  replace (length pts <? 10)%nat with false by (symmetry; apply Nat.ltb_ge; lia).
  destruct (analyzeShape_stages pts Hl) as (start & end_ & vs & N0 & N1 & _ & V & ->).
  rewrite (run_getA h a pts Ha 0 start) by assumption.
  rewrite (run_getA h a pts Ha (length pts - 1) end_) by assumption.
  rewrite (run_load h a pts Ha). cbv zeta. unfold classify.
  destruct (PrimFloat.ltb 0.94 _).
  { eexists _, h. split; [reflexivity|]. split; [reflexivity | apply extends_refl]. }
  cbv zeta. destruct (PrimFloat.ltb 0.80 _).
  { eexists _, h. split; [reflexivity|]. split; [reflexivity | apply extends_refl]. }
  destruct (vertices_inv pts vs V) as (simplified & R & M).
  pose proof R as Rpost. apply rdp_returns_post in Rpost.
  destruct Rpost as (_ & T & _). specialize (T ltac:(lia)).
  destruct (get_Returns simplified 0) as (s0 & _ & S0); [lia|].
  destruct (get_Returns simplified (length simplified - 1)) as (sl & _ & S1); [lia|].
  rewrite (mergeClosed_eq pts simplified s0 sl start end_ S0 S1 N0 N1) in M.
  injection M as <-.
  destruct (Store_rdp_refines (length pts) h a pts (epsilonOf pts) simplified Ha R)
    as (b & h1 & E1 & X1 & L1 & _).
  unfold Store.ramerDouglasPeucker. unfold Store.bind at 1.
  rewrite (run_lengthA h a pts Ha), E1.
  rewrite (run_lengthA h1 b simplified L1).
  rewrite (run_getA h1 b simplified L1 0 s0) by assumption.
  rewrite (run_getA h1 b simplified L1 (length simplified - 1) sl) by assumption.
  rewrite (run_spreadA h1 b simplified L1).
  rewrite (run_lengthA (h1 ++ [simplified]) (length h1) simplified (lookup_snoc h1 _)).
  rewrite (run_merge h1 simplified s0 sl _
             (fun v0 vl => PrimFloat.ltb (getDistance v0 vl) (epsilonOf pts * 2)))
    by assumption.
  match goal with
  | |- context [h1 ++ [?w]] =>
      set (vs := w);
      assert (X2 : extends h (h1 ++ [vs]))
        by (eapply extends_trans; [exact X1 | apply extends_snoc]);
      rewrite (run_lengthA (h1 ++ [vs]) (length h1) vs (lookup_snoc h1 vs));
      generalize dependent (h1 ++ [vs])
  end.
  intros h2 X2.
  destruct (length vs =? 3)%nat.
  { eexists _, h2. split; [reflexivity|]. split; [reflexivity | assumption]. }
  destruct ((4 <=? length vs)%nat && (length vs <=? 6)%nat).
  { eexists _, h2. split; [reflexivity|]. split; [reflexivity | assumption]. }
  rewrite (run_load h2 a pts (extends_lookup h h2 a pts X2 Ha)). cbv zeta.
  change (fold_left (fun acc p => acc + getDistance p (center pts)) pts 0 / lengthF pts)
    with (avgRadius pts).
  change (fold_left
            (fun acc p =>
               acc + (getDistance p (center pts) - avgRadius pts)
                     * (getDistance p (center pts) - avgRadius pts)) pts 0
          / lengthF pts / (avgRadius pts * avgRadius pts))
    with (normalizedVariance pts).
  destruct (PrimFloat.ltb (normalizedVariance pts) 0.05 && PrimFloat.ltb 0.6 (fillRatio pts)).
  { eexists _, h2. split; [reflexivity|]. split; [reflexivity | assumption]. }
  destruct (PrimFloat.ltb 0.35 (fillRatio pts) && PrimFloat.ltb (fillRatio pts) 0.65);
    eexists _, h2; (split; [reflexivity|]); split; try reflexivity; assumption.
Qed.

(** When the line test or the fill shortcut classifies the stroke, the
    store is left as it was: nothing has been allocated, so the simplifier,
    which allocates on three points or more, has not run. *)
Lemma Store_analyzeShape_early (h : Store.heap) (a : Store.addr) (pts : list Point)
    (lin : float) :
  nth_error h a = Some pts ->
  (10 <= length pts)%nat ->
  linearity pts = Returns lin ->
  PrimFloat.ltb 0.94 lin = true \/ PrimFloat.ltb 0.80 (fillRatio pts) = true ->
  exists r, analyzeShape pts = Returns r /\ Store.analyzeShape a h = Returns (r, h).
Proof.
  intros Ha Hl L Hearly. unfold Store.analyzeShape. rewrite (run_lengthA h a pts Ha).
  replace (length pts <? 10)%nat with false by (symmetry; apply Nat.ltb_ge; lia).
  destruct (analyzeShape_stages pts Hl) as (start & end_ & vs & N0 & N1 & L' & _ & ->).
  rewrite L in L'. injection L' as L'.
  rewrite (run_getA h a pts Ha 0 start) by assumption.
  rewrite (run_getA h a pts Ha (length pts - 1) end_) by assumption.
  rewrite (run_load h a pts Ha). cbv zeta. unfold classify. rewrite <- L'.
  destruct (PrimFloat.ltb 0.94 lin); [eexists; split; reflexivity|].
  cbv zeta. destruct Hearly as [?| ->]; [discriminate|].
  eexists; split; reflexivity.
Qed.

(** ** A stroke confined to one point *)

Lemma is_finite_spec (a : float) :
  PrimFloat.is_finite a = true ->
  match Prim2SF a with
  | S754_zero _ | S754_finite _ _ _ => True
  | _ => False
  end.
Proof.
  unfold PrimFloat.is_finite, PrimFloat.is_nan, PrimFloat.is_infinity.
  rewrite !FloatAxioms.eqb_spec, FloatAxioms.abs_spec.
  replace (Prim2SF PrimFloat.infinity) with (S754_infinity false)
    by (vm_compute; reflexivity).
  destruct (Prim2SF a) as [s|s| |s m e]; auto; try destruct s; discriminate.
Qed.

Lemma SFsub_self (s : bool) (m : positive) (e : Z) :
  SF64sub (S754_finite s m e) (S754_finite s m e) = S754_zero false.
Proof.
  unfold SF64sub, SFsub. cbv zeta.
  change (IntDef.Z.min e e) with (Z.min e e). rewrite Z.min_id.
  unfold shl_align.
  replace (IntDef.Z.sub e e) with 0%Z by (symmetry; apply Z.sub_diag). cbn [fst].
  replace (IntDef.Z.sub (cond_Zopp s (Zpos m)) (cond_Zopp s (Zpos m))) with 0%Z
    by (symmetry; apply Z.sub_diag).
  reflexivity.
Qed.

Lemma sub_self (a : float) : PrimFloat.is_finite a = true -> a - a = 0.
Proof.
  intros H. apply is_finite_spec in H. apply Prim2SF_inj.
  rewrite FloatAxioms.sub_spec, Prim2SF_zero.
  destruct (Prim2SF a) as [s|s| |s m e]; try contradiction.
  - now destruct s.
  - apply SFsub_self.
Qed.

Lemma ltb_infinity (a : float) :
  PrimFloat.is_finite a = true ->
  PrimFloat.ltb a PrimFloat.infinity = true /\
  PrimFloat.ltb PrimFloat.neg_infinity a = true.
Proof.
  intros H. apply is_finite_spec in H. rewrite !FloatAxioms.ltb_spec.
  replace (Prim2SF PrimFloat.infinity) with (S754_infinity false)
    by (vm_compute; reflexivity).
  replace (Prim2SF PrimFloat.neg_infinity) with (S754_infinity true)
    by (vm_compute; reflexivity).
  destruct (Prim2SF a) as [s|s| |s m e]; try contradiction; split; reflexivity.
Qed.

Lemma ltb_irrefl (a : float) : PrimFloat.ltb a a = false.
Proof.
  destruct (PrimFloat.ltb a a) eqn:E; [|reflexivity].
  pose proof (ltb_asym a a E). congruence.
Qed.

(** [0 + v - v] is 0, or NaN when [v] is not finite; NaN stays NaN. *)
Lemma add_sub_cancel (acc v : float) :
  acc = 0 \/ acc = PrimFloat.nan ->
  acc + v - v = 0 \/ acc + v - v = PrimFloat.nan.
Proof.
  assert (N : Prim2SF PrimFloat.nan = S754_nan) by (vm_compute; reflexivity).
  intros [-> | ->].
  - assert (H : Prim2SF (0 + v - v) = S754_zero false \/ Prim2SF (0 + v - v) = S754_nan).
    { rewrite FloatAxioms.sub_spec, FloatAxioms.add_spec, Prim2SF_zero.
      destruct (Prim2SF v) as [s|s| |s m e].
      - left. now destruct s.
      - right. now destruct s.
      - now right.
      - left. cbn [SF64add SFadd]. apply SFsub_self. }
    destruct H as [H|H]; [left | right]; apply Prim2SF_inj; rewrite H; auto.
  - right. apply Prim2SF_inj.
    rewrite FloatAxioms.sub_spec, FloatAxioms.add_spec, N. reflexivity.
Qed.

Lemma Forall_slice_of {A : Type} (P : A -> Prop) (l : list A) :
  Forall P l -> forall from n, Forall P (firstn n (skipn from l)).
Proof.
  intros H from.
  assert (Hs : Forall P (skipn from l)).
  { revert l H. induction from as [|from IH]; intros l H; [assumption|].
    destruct H; simpl; auto. }
  revert Hs. generalize (skipn from l). clear. intros l H n. revert l H.
  induction n as [|n IH]; intros l H; simpl; [constructor|].
  destruct H; constructor; auto.
Qed.

Section Spot.

Variable p : Point.
Hypothesis Hx : PrimFloat.is_finite (x p) = true.
Hypothesis Hy : PrimFloat.is_finite (y p) = true.

Lemma getDistance_self : getDistance p p = 0.
Proof. unfold getDistance. rewrite !sub_self by assumption. reflexivity. Qed.

Lemma perpendicularDistance_self : perpendicularDistance p p p = 0.
Proof. unfold perpendicularDistance. rewrite !sub_self by assumption. reflexivity. Qed.

Lemma getPathLength_spot (n : nat) : getPathLength (repeat p n) = 0.
Proof.
  destruct n as [|n]; [reflexivity|]. simpl.
  induction n as [|n IH]; simpl; [reflexivity|].
  rewrite getDistance_self. exact IH.
Qed.

Lemma boundingBox_spot (n : nat) :
  boundingBox (repeat p (S n)) = mkBBox (x p) (x p) (y p) (y p).
Proof.
  unfold boundingBox. simpl. unfold bbox_step at 2. cbn [minX maxX minY maxY].
  destruct (ltb_infinity (x p) Hx) as [-> ->].
  destruct (ltb_infinity (y p) Hy) as [-> ->].
  induction n as [|n IH]; simpl; [reflexivity|].
  unfold bbox_step at 2. cbn [minX maxX minY maxY]. rewrite !ltb_irrefl. exact IH.
Qed.

Lemma width_spot (n : nat) : width (repeat p (S n)) = 0.
Proof. unfold width. rewrite boundingBox_spot. now apply sub_self. Qed.

Lemma height_spot (n : nat) : height (repeat p (S n)) = 0.
Proof. unfold height. rewrite boundingBox_spot. now apply sub_self. Qed.

Lemma shoelace_spot (n : nat) :
  forall acc,
    acc = 0 \/ acc = PrimFloat.nan ->
    shoelace_loop p (repeat p n) acc = 0 \/
    shoelace_loop p (repeat p n) acc = PrimFloat.nan.
Proof.
  induction n as [|n IH]; intros acc Hacc; simpl; [assumption|].
  apply IH. replace (match repeat p n with [] => p | q :: _ => q end) with p
    by (now destruct n).
  now apply add_sub_cancel.
Qed.

Lemma fillRatio_spot (n : nat) : fillRatio (repeat p (S n)) = PrimFloat.nan.
Proof.
  unfold fillRatio. rewrite width_spot, height_spot. unfold polygonArea.
  change (repeat p (S n)) with (p :: repeat p n) at 1.
  cbv iota.
  destruct (shoelace_spot (S n) 0 (or_introl eq_refl)) as [-> | ->]; reflexivity.
Qed.

Lemma epsilonOf_spot (n : nat) : epsilonOf (repeat p (S n)) = 5.
Proof.
  unfold epsilonOf, diag. rewrite width_spot, height_spot. reflexivity.
Qed.

Lemma rdp_scan_spot (mid : list Point) :
  Forall (eq p) mid ->
  forall i, rdp_scan p p mid i 0 0%nat = (0, 0%nat).
Proof.
  induction 1 as [|q mid <- _ IH]; intros i; simpl; [reflexivity|].
  rewrite perpendicularDistance_self. change (PrimFloat.ltb 0 0) with false.
  apply IH.
Qed.

Lemma nth_error_spot (n i : nat) : (i < n)%nat -> nth_error (repeat p n) i = Some p.
Proof.
  revert i. induction n as [|n IH]; intros i Hi; [lia|].
  destruct i as [|i]; simpl; [reflexivity|]. apply IH. lia.
Qed.

Lemma Forall_spot_slice (n from to : nat) : Forall (eq p) (slice from to (repeat p n)).
Proof.
  unfold slice. apply Forall_slice_of. induction n; simpl; auto.
Qed.

Lemma ramerDouglasPeucker_spot (n : nat) :
  (3 <= n)%nat -> ramerDouglasPeucker (repeat p n) 5 = Returns [p; p].
Proof.
  intros Hn. unfold ramerDouglasPeucker. rewrite repeat_length.
  destruct n as [|f]; [lia|].
  destruct (rdp_step f (repeat p (S f)) 5) as (first & last & dmax & index & F & L & S & ->);
    [rewrite repeat_length; lia|].
  rewrite nth_error_spot in F, L by (rewrite ?repeat_length; lia).
  injection F as <-. injection L as <-.
  rewrite rdp_scan_spot in S by apply Forall_spot_slice.
  injection S as <- <-. reflexivity.
Qed.

Lemma vertices_spot (n : nat) :
  (3 <= n)%nat -> vertices (repeat p n) = Returns [p; p].
Proof.
  intros Hn. unfold vertices.
  destruct n as [|n]; [lia|]. rewrite epsilonOf_spot.
  rewrite ramerDouglasPeucker_spot by lia. cbn [bind].
  rewrite (mergeClosed_eq (repeat p (S n)) [p; p] p p p p); try reflexivity;
    try (apply nth_error_spot; rewrite ?repeat_length; lia).
  now rewrite andb_false_r.
Qed.

(** A stroke of ten or more samples of one point with finite coordinates is
    classified [unknown]: its linearity and its fill ratio are [0 / 0]. *)
Lemma analyzeShape_spot (n : nat) :
  (10 <= n)%nat -> analyzeShape (repeat p n) = Returns (mkShape unknown 0 DataNull).
Proof.
  intros Hn.
  destruct (analyzeShape_stages (repeat p n)) as (s & e & vs & N0 & N1 & _ & V & ->);
    [rewrite repeat_length; lia|].
  rewrite nth_error_spot in N0, N1 by (rewrite ?repeat_length; lia).
  injection N0 as <-. injection N1 as <-.
  rewrite vertices_spot in V by lia. injection V as <-.
  unfold classify. rewrite getDistance_self, getPathLength_spot.
  change (PrimFloat.ltb 0.94 (0 / 0)) with false. cbv zeta.
  destruct n as [|n]; [lia|]. rewrite fillRatio_spot.
  change (PrimFloat.ltb 0.80 PrimFloat.nan) with false.
  change (PrimFloat.ltb 0.6 PrimFloat.nan) with false.
  change (PrimFloat.ltb 0.35 PrimFloat.nan) with false.
  cbn [length Nat.eqb Nat.leb andb]. now rewrite andb_false_r.
Qed.

End Spot.


(** ** The circularity measures *)






(** ** Sample strokes, evaluated *)

Example analyze_perimeter :
  analyzeShape perimeter = Returns (mkShape rect 1 (DataRect 0 0 30 20)).
Proof. vm_compute. reflexivity. Qed.

Example analyze_circle12 :
  analyzeShape circle12
  = Returns (mkShape circle 0x1.ffffa7f54a613p-1 (DataCircle 300 300 0x1.90eb1d78bde34p+6)).
Proof. vm_compute. reflexivity. Qed.

Example analyze_scribble :
  analyzeShape scribble = Returns (mkShape unknown 0 DataNull).
Proof. vm_compute. reflexivity. Qed.

Example analyze_slanted :
  analyzeShape slanted
  = Returns (mkShape line 0x1.0000000000001p+0 (DataLine (pt 0 0) (pt 27 9))).
Proof. vm_compute. reflexivity. Qed.

Example analyze_verticalLine :
  analyzeShape verticalLine = Returns (mkShape line 1 (DataLine (pt 0 0) (pt 0 9))).
Proof. vm_compute. reflexivity. Qed.

Example analyze_verticalUpDown :
  analyzeShape verticalUpDown = Returns (mkShape triangle 0.9 (DataTriangle 0 50 0 100)).
Proof. vm_compute. reflexivity. Qed.

Example analyze_doubleSquare :
  analyzeShape doubleSquare = Returns (mkShape rect 2 (DataRect 0 0 10 10)).
Proof. vm_compute. reflexivity. Qed.

Example analyze_singleSpot :
  analyzeShape singleSpot = Returns (mkShape unknown 0 DataNull).
Proof. vm_compute. reflexivity. Qed.

Example analyze_stretched12 :
  analyzeShape stretched12
  = Returns (mkShape circle 0.95 (DataCircle 300 300 152.981543030273)).
Proof. vm_compute. reflexivity. Qed.

Example analyze_closedTriangle :
  analyzeShape closedTriangle = Returns (mkShape triangle 0.9 (DataTriangle 20 20 40 40)).
Proof. vm_compute. reflexivity. Qed.

(** The same call over a store that holds the stroke at address 0: the
    simplifier allocates its slices and results, the spread allocates
    [vertices], the last array, and [pop] shortens it to three points. *)
Example store_closedTriangle :
  exists h',
    Store.analyzeShape 0%nat [closedTriangle]
    = Returns (mkShape triangle 0.9 (DataTriangle 20 20 40 40), h') /\
    nth_error h' 0 = Some closedTriangle /\
    last h' [] = [pt 0 0; pt 40 0; pt 20 40].
Proof. eexists. split; [vm_compute; reflexivity | split; reflexivity]. Qed.


(** * The claims *)

(** ** Minimum length *)

(** C7: a stroke of fewer than 10 points is classified [unknown] with score 0
    and a null payload, whatever its geometry. *)
Theorem analyzeShape_minimum_length (originalPoints : list Point) :
  (length originalPoints < 10)%nat ->
  analyzeShape originalPoints = Returns (mkShape unknown 0 DataNull).
Proof. apply analyzeShape_short. Qed.

Lemma analyzeShape_minimum_length_witness :
  (length shortDiagonal < 10)%nat /\
  analyzeShape shortDiagonal = Returns (mkShape unknown 0 DataNull).
Proof.
  split; [simpl; lia|]. apply (analyzeShape_minimum_length shortDiagonal). simpl; lia.
Defined.

(** ** Line test *)

(** C4: a stroke of at least 10 points whose linearity (distance from first
    to last point over path length) exceeds 0.94 is classified [line], with
    that linearity as score and the first and last points as payload; no
    bounding box, area or later stage enters the result, and over a store
    the call returns without having allocated: the simplifier has not run. *)
Theorem analyzeShape_line (originalPoints : list Point) (start end_ : Point) :
  (10 <= length originalPoints)%nat ->
  nth_error originalPoints 0 = Some start ->
  nth_error originalPoints (length originalPoints - 1) = Some end_ ->
  PrimFloat.ltb 0.94 (getDistance start end_ / getPathLength originalPoints) = true ->
  linearity originalPoints
    = Returns (getDistance start end_ / getPathLength originalPoints) /\
  analyzeShape originalPoints
    = Returns (mkShape line (getDistance start end_ / getPathLength originalPoints)
                       (DataLine start end_)) /\
  forall h a,
    nth_error h a = Some originalPoints ->
    Store.analyzeShape a h
    = Returns (mkShape line (getDistance start end_ / getPathLength originalPoints)
                       (DataLine start end_), h).
Proof.
  intros Hlen H0 H1 Hlin.
  destruct (analyzeShape_stages originalPoints Hlen)
    as (start' & end' & vs & N0 & N1 & L & _ & E).
  assert (start' = start) by congruence. assert (end' = end_) by congruence. subst.
  unfold classify in E. rewrite Hlin in E.
  split; [assumption|]. split; [assumption|].
  intros h a Ha.
  destruct (Store_analyzeShape_early h a originalPoints _ Ha Hlen L (or_introl Hlin))
    as (r & Hr & ->).
  rewrite Hr in E. injection E as ->. reflexivity.
Qed.

Lemma analyzeShape_line_witness :
  analyzeShape verticalLine = Returns (mkShape line 1 (DataLine (pt 0 0) (pt 0 9))).
Proof.
  refine (proj1 (proj2 (analyzeShape_line verticalLine (pt 0 0) (pt 0 9) _ _ _ _)));
    try reflexivity; simpl; lia.
Defined.

(** ** Rectangle by fill *)

(** C5: a stroke of at least 10 points whose linearity is not above 0.94 and
    whose fill ratio exceeds 0.80 is classified [rect], with the fill ratio
    as score and its bounding box (left, top, width, height) as payload; the
    simplifier and the later stages do not enter the result, and over a
    store the call returns without having allocated: the simplifier has not
    run. *)
Theorem analyzeShape_rect_by_fill (originalPoints : list Point) (lin : float) :
  (10 <= length originalPoints)%nat ->
  linearity originalPoints = Returns lin ->
  PrimFloat.ltb 0.94 lin = false ->
  PrimFloat.ltb 0.80 (fillRatio originalPoints) = true ->
  analyzeShape originalPoints
    = Returns (mkShape rect (fillRatio originalPoints)
                 (DataRect (minX (boundingBox originalPoints))
                           (minY (boundingBox originalPoints))
                           (maxX (boundingBox originalPoints)
                            - minX (boundingBox originalPoints))
                           (maxY (boundingBox originalPoints)
                            - minY (boundingBox originalPoints)))) /\
  forall h a,
    nth_error h a = Some originalPoints ->
    Store.analyzeShape a h
    = Returns (mkShape rect (fillRatio originalPoints) (rectData originalPoints), h).
Proof.
  intros Hlen L Hlin Hfill.
  destruct (analyzeShape_stages originalPoints Hlen)
    as (start & end_ & vs & _ & _ & L' & _ & E).
  rewrite L in L'. injection L' as L'. rewrite <- L' in E.
  unfold classify in E. rewrite Hlin, Hfill in E.
  split; [exact E|].
  intros h a Ha.
  destruct (Store_analyzeShape_early h a originalPoints _ Ha Hlen L (or_intror Hfill))
    as (r & Hr & ->).
  rewrite Hr in E. injection E as ->. reflexivity.
Qed.

Lemma analyzeShape_rect_by_fill_witness :
  analyzeShape perimeter = Returns (mkShape rect 1 (DataRect 0 0 30 20)).
Proof.
  refine (proj1 (analyzeShape_rect_by_fill perimeter 0x1.c71c71c71c71cp-4 _ _ _ _));
    try reflexivity; simpl; lia.
Defined.

(** ** The simplifier *)

(** C3, as the code has it: for every point list and every tolerance that is
    not negative (a NaN tolerance included), [ramerDouglasPeucker] returns a
    list that (a) is no longer than the input, (b) starts with the first and
    ends with the last input point, and (c) is the input itself when the
    input has fewer than 3 points. *)
Theorem ramerDouglasPeucker_invariants (points : list Point) (epsilon : float) :
  PrimFloat.ltb epsilon 0 = false ->
  exists r,
    ramerDouglasPeucker points epsilon = Returns r /\
    (length r <= length points)%nat /\
    first_of r = first_of points /\
    last_of r = last_of points /\
    ((length points < 3)%nat -> r = points).
Proof.
  intros Heps.
  destruct (ramerDouglasPeucker_returns points epsilon Heps) as (r & Hr & L & _ & F & E).
  exists r. repeat (split; [assumption|]).
  intros Hs. unfold ramerDouglasPeucker in Hr. rewrite rdp_short in Hr by assumption.
  congruence.
Qed.

Lemma ramerDouglasPeucker_invariants_witness :
  exists r,
    ramerDouglasPeucker perimeter 5 = Returns r /\
    (length r <= length perimeter)%nat /\
    first_of r = first_of perimeter /\
    last_of r = last_of perimeter /\
    ((length perimeter < 3)%nat -> r = perimeter).
Proof. apply (ramerDouglasPeucker_invariants perimeter 5). reflexivity. Defined.

(** C3 as stated fails for a negative tolerance: on three collinear points
    the scan ends on index 0 with [dmax = 0 > -1], the second recursive call
    is on the whole list again, and no amount of fuel lets the call return. *)
Lemma ramerDouglasPeucker_negative_tolerance :
  ramerDouglasPeucker collinear3 (-1) = OutOfFuel /\
  forall fuel, rdp fuel collinear3 (-1) = OutOfFuel.
Proof.
  split; [reflexivity|]. intros fuel.
  apply rdp_loops with (first := pt 0 0) (last := pt 2 0) (dmax := 0);
    try reflexivity; simpl; lia.
Qed.

(** ** Totality *)


(** ** Circularity *)



(** ** Scores *)

(** C10, as the code has it: the score is 0 exactly when the kind is
    [unknown]; every other result has a score of at least 0.7: a [line] above
    0.94, a [rect] above 0.80 (fill shortcut) or exactly 0.9 (vertex count),
    a [triangle] exactly 0.9 or 0.7, and a [circle] at least 0.95. *)
Theorem score_by_kind (originalPoints : list Point) :
  exists r,
    analyzeShape originalPoints = Returns r /\
    (score r = 0 <-> type r = unknown) /\
    (type r <> unknown -> PrimFloat.leb 0.7 (score r) = true) /\
    match type r with
    | unknown => score r = 0
    | line => PrimFloat.ltb 0.94 (score r) = true
    | rect => PrimFloat.ltb 0.80 (score r) = true \/ score r = 0.9
    | triangle => score r = 0.9 \/ score r = 0.7
    | circle => PrimFloat.leb 0.95 (score r) = true
    end.
Proof.
  destruct (analyzeShape_stage originalPoints) as (r & Hr & S).
  exists r. split; [assumption|].
  destruct S as [|lin s e L H|H|H|H|H1 H2 H3|H1 H2 H3]; cbn [type score].
  - repeat split; auto.
  - repeat split; try discriminate; auto.
    + intros ->. discriminate H.
    + intros _. apply ltb_leb. now apply leb_ltb_trans with 0.94.
  - repeat split; try discriminate; auto.
    + intros E. rewrite E in H. discriminate H.
    + intros _. apply ltb_leb. now apply leb_ltb_trans with 0.80.
  - repeat split; try discriminate; auto.
  - repeat split; try discriminate; auto.
  - destruct (circle_score_bounds originalPoints H2) as [G _].
    repeat split; try discriminate; auto.
    + intros E. rewrite E in G. discriminate G.
    + intros _. now apply leb_trans with 0.95.
  - repeat split; try discriminate; auto.
Qed.

(** C10 as stated fails on its bound for circles: on this stroke the
    normalized variance is the largest binary64 number below 0.05 and the
    score [1 - normalizedVariance] rounds to 0.95, which is not above 0.95. *)
Lemma circle_score_not_above_095 :
  exists r,
    analyzeShape stretched12 = Returns r /\
    type r = circle /\
    score r = 0.95 /\
    PrimFloat.ltb 0.95 (score r) = false.
Proof.
  eexists. split; [vm_compute; reflexivity|]. repeat split.
Qed.

(** C2, as the code has it: the score is never negative nor NaN; it is at
    most 1 for the kinds [unknown], [triangle] and [circle] and for the
    [rect] of the vertex count; the score of a [line] is its linearity,
    above 0.94, and the score of the [rect] of the fill shortcut is its fill
    ratio, above 0.80, neither being bounded by 1. *)
Theorem score_range (originalPoints : list Point) :
  exists r,
    analyzeShape originalPoints = Returns r /\
    PrimFloat.leb 0 (score r) = true /\
    (PrimFloat.leb (score r) 1 = true \/
     (type r = line /\ linearity originalPoints = Returns (score r) /\
      PrimFloat.ltb 0.94 (score r) = true) \/
     (type r = rect /\ score r = fillRatio originalPoints /\
      PrimFloat.ltb 0.80 (score r) = true)).
Proof.
  destruct (analyzeShape_stage originalPoints) as (r & Hr & S).
  exists r. split; [assumption|].
  destruct S as [|lin s e L H|H|H|H|H1 H2 H3|H1 H2 H3]; cbn [type score].
  - split; [reflexivity | left; reflexivity].
  - split; [|right; left; auto].
    apply ltb_leb. now apply leb_ltb_trans with 0.94.
  - split; [|right; right; auto].
    apply ltb_leb. now apply leb_ltb_trans with 0.80.
  - split; [reflexivity | left; reflexivity].
  - split; [reflexivity | left; reflexivity].
  - destruct (circle_score_bounds originalPoints H2) as [G1 G2].
    split; [now apply leb_trans with 0.95 | left; assumption].
  - split; [reflexivity | left; reflexivity].
Qed.

(** C2 as stated fails: a stroke that goes twice round a square encloses,
    by the shoelace sum, twice the area of its bounding box, and is
    classified [rect] with score 2. *)
Lemma rect_score_above_one :
  exists r,
    analyzeShape doubleSquare = Returns r /\
    type r = rect /\
    score r = fillRatio doubleSquare /\
    score r = 2 /\
    PrimFloat.leb (score r) 1 = false.
Proof.
  eexists. split; [vm_compute; reflexivity|]. repeat split.
Qed.

(** ** Degenerate bounding boxes *)

(** C1, as the code has it: for a stroke of 10 or more points whose bounding
    box has zero width or zero height there is no guard: the fill ratio is a
    division by zero and is NaN or an infinity; the stroke is classified, and
    never as a [circle] nor by the fuzzy fallback (a [triangle] has score
    0.9).  A stroke of 10 or more samples of one point with finite
    coordinates is classified [unknown]. *)
Theorem degenerate_box :
  (forall originalPoints,
      (10 <= length originalPoints)%nat ->
      PrimFloat.eqb (width originalPoints) 0 = true \/
      PrimFloat.eqb (height originalPoints) 0 = true ->
      PrimFloat.is_nan (fillRatio originalPoints)
      || PrimFloat.is_infinity (fillRatio originalPoints) = true /\
      exists r,
        analyzeShape originalPoints = Returns r /\
        type r <> circle /\
        (type r = triangle -> score r = 0.9)) /\
  (forall p n,
      (10 <= n)%nat ->
      PrimFloat.is_finite (x p) = true ->
      PrimFloat.is_finite (y p) = true ->
      analyzeShape (repeat p n) = Returns (mkShape unknown 0 DataNull)).
Proof.
  split; [|intros p n Hn Hx Hy; now apply analyzeShape_spot].
  intros originalPoints _ Hbox. split.
  { apply not_finite_flags. now apply fillRatio_degenerate. }
  destruct (analyzeShape_stage originalPoints) as (r & Hr & S).
  exists r. split; [assumption|].
  destruct S as [|lin s e L H|H|H|H|H1 H2 H3|H1 H2 H3]; cbn [type score];
    try (split; [discriminate | try discriminate; auto]).
  - destruct (fillRatio_degenerate_tests originalPoints Hbox H1) as [F _]. congruence.
  - destruct (fillRatio_degenerate_tests originalPoints Hbox H1) as [_ F]. congruence.
Qed.

Lemma degenerate_box_witness :
  (PrimFloat.is_nan (fillRatio verticalUpDown)
   || PrimFloat.is_infinity (fillRatio verticalUpDown) = true /\
   exists r,
     analyzeShape verticalUpDown = Returns r /\
     type r <> circle /\
     (type r = triangle -> score r = 0.9)) /\
  analyzeShape (repeat (pt 5 5) 10) = Returns (mkShape unknown 0 DataNull).
Proof.
  split.
  - apply (proj1 degenerate_box verticalUpDown); [simpl; lia | left; reflexivity].
  - apply (proj2 degenerate_box (pt 5 5) 10%nat); [lia | reflexivity | reflexivity].
Defined.

(** C1 as stated fails: this stroke of 10 points runs up and down a vertical
    segment; its bounding box has zero width, its fill ratio is [0 / 0],
    NaN, and it is classified [triangle] by the vertex count. *)
Lemma vertical_stroke_not_unknown :
  (10 <= length verticalUpDown)%nat /\
  width verticalUpDown = 0 /\
  PrimFloat.is_nan (fillRatio verticalUpDown) = true /\
  exists r, analyzeShape verticalUpDown = Returns r /\ type r = triangle.
Proof.
  split; [simpl; lia|]. split; [reflexivity|]. split; [reflexivity|].
  eexists. split; [vm_compute; reflexivity | reflexivity].
Qed.

(** ** Purity *)

(** C9: a call of the classifier on an array of a store returns the result
    of the classifier on the list of its points, writes to no array that
    existed before the call, so that the input array (and each of its
    points, which are values) is as it was, and a second call on the same
    array returns the same result. *)
Theorem analyzeShape_pure (h : Store.heap) (a : Store.addr) (pts : list Point) :
  nth_error h a = Some pts ->
  exists r h1 h2,
    Store.analyzeShape a h = Returns (r, h1) /\
    (forall b v, nth_error h b = Some v -> nth_error h1 b = Some v) /\
    nth_error h1 a = Some pts /\
    Store.analyzeShape a h1 = Returns (r, h2) /\
    analyzeShape pts = Returns r.
Proof.
  intros Ha.
  destruct (Store_analyzeShape_refines h a pts Ha) as (r & h1 & P & E1 & X1).
  pose proof (extends_lookup h h1 a pts X1 Ha) as Ha1.
  destruct (Store_analyzeShape_refines h1 a pts Ha1) as (r' & h2 & P' & E2 & _).
  assert (r' = r) by congruence. subst r'.
  exists r, h1, h2. repeat split; try assumption.
  intros b v Hb. now apply (extends_lookup h h1).
Qed.

Lemma analyzeShape_pure_witness :
  exists r h1 h2,
    Store.analyzeShape 0%nat [closedTriangle] = Returns (r, h1) /\
    (forall b v, nth_error [closedTriangle] b = Some v -> nth_error h1 b = Some v) /\
    nth_error h1 0%nat = Some closedTriangle /\
    Store.analyzeShape 0%nat h1 = Returns (r, h2) /\
    analyzeShape closedTriangle = Returns r.
Proof. apply (analyzeShape_pure [closedTriangle] 0%nat closedTriangle). reflexivity. Defined.

(** * The rest of the code *)

(** ** Subsequences *)

Lemma subseq_refl {A : Type} (l : list A) : subseq l l.
Proof. induction l; constructor; assumption. Qed.

Lemma subseq_nil_l {A : Type} (l : list A) : subseq [] l.
Proof. induction l; constructor; assumption. Qed.

Lemma subseq_app {A : Type} (a b c d : list A) :
  subseq a b -> subseq c d -> subseq (a ++ c) (b ++ d).
Proof.
  induction 1 as [|x l1 l2 H IH|x l1 l2 H IH]; intros Hcd; simpl.
  - assumption.
  - apply subseq_skip. auto.
  - apply subseq_keep. auto.
Qed.

Lemma subseq_length {A : Type} (l1 l2 : list A) :
  subseq l1 l2 -> (length l1 <= length l2)%nat.
Proof. induction 1; simpl; lia. Qed.

Lemma subseq_In {A : Type} (l1 l2 : list A) (a : A) :
  subseq l1 l2 -> In a l1 -> In a l2.
Proof. induction 1; simpl; intuition. Qed.

Lemma subseq_trans {A : Type} (l2 l3 : list A) :
  subseq l2 l3 -> forall l1, subseq l1 l2 -> subseq l1 l3.
Proof.
  induction 1 as [|a l2 l3 H IH|a l2 l3 H IH]; intros l1 H1.
  - assumption.
  - apply subseq_skip. auto.
  - inversion H1; subst; [apply subseq_skip | apply subseq_keep]; auto.
Qed.

Lemma subseq_removelast {A : Type} (l : list A) : subseq (removelast l) l.
Proof.
  induction l as [|a [|b l] IH].
  - apply subseq_nil.
  - apply subseq_nil_l.
  - change (removelast (a :: b :: l)) with (a :: removelast (b :: l)).
    now apply subseq_keep.
Qed.

Lemma subseq_removelast_snoc {A : Type} (l : list A) (a : A) :
  forall r, subseq r (l ++ [a]) -> subseq (removelast r) l.
Proof.
  induction l as [|b l IH]; intros r H; simpl in H.
  - inversion H as [|? ? ? H'|? ? ? H']; subst; inversion H'; subst; apply subseq_nil.
  - inversion H as [|? ? ? H'|? r0 ? H']; subst.
    + apply subseq_skip. auto.
    + destruct r0 as [|c r0]; [apply subseq_nil_l|].
      change (removelast (b :: c :: r0)) with (b :: removelast (c :: r0)).
      apply subseq_keep. auto.
Qed.

Lemma subseq_last {A : Type} (l : list A) (a : A) :
  last_of l = Some a -> subseq [a] l.
Proof.
  unfold last_of. induction l as [|b [|c l] IH]; simpl; intros H.
  - discriminate.
  - injection H as ->. apply subseq_keep, subseq_nil.
  - apply subseq_skip. apply IH. simpl. rewrite Nat.sub_0_r. exact H.
Qed.

Lemma subseq_ends {A : Type} (l : list A) (f la : A) :
  (2 <= length l)%nat -> first_of l = Some f -> last_of l = Some la ->
  subseq [f; la] l.
Proof.
  destruct l as [|b l]; simpl; [lia|]. intros Hl Hf Hla.
  injection Hf as ->. apply subseq_keep. apply subseq_last.
  unfold last_of in *. simpl in Hla. rewrite Nat.sub_0_r in Hla.
  destruct l as [|c l]; [simpl in Hl; lia|]. simpl. rewrite Nat.sub_0_r. exact Hla.
Qed.

Lemma firstn_S_snoc {A : Type} (l : list A) (k : nat) (a : A) :
  nth_error l k = Some a -> firstn (k + 1) l = firstn k l ++ [a].
Proof.
  revert l. induction k as [|k IH]; intros [|b l] H; simpl in *; try discriminate.
  - now injection H as ->.
  - f_equal. auto.
Qed.

Lemma slice_removelast {A : Type} (l : list A) : slice 0 (length l - 1) l = removelast l.
Proof.
  rewrite slice_prefix. induction l as [|a [|b l] IH]; try reflexivity.
  change (removelast (a :: b :: l)) with (a :: removelast (b :: l)).
  rewrite <- IH. simpl. now rewrite Nat.sub_0_r.
Qed.

(** ** The simplifier keeps a subsequence *)

Lemma rdp_subseq (fuel : nat) :
  forall points epsilon r,
    rdp fuel points epsilon = Returns r -> subseq r points.
Proof.
  induction fuel as [|fuel IH]; intros points epsilon r H;
    apply rdp_cases in H;
    destruct H as [[_ ->]|(fuel' & first & last & dmax & index & Hf & Hlen & H0 & H1 & Hscan & H)];
    try apply subseq_refl; try discriminate.
  injection Hf as <-.
  destruct H as [[_ ->]|(_ & r1 & r2 & R1 & R2 & ->)].
  - apply subseq_ends; [lia | assumption | assumption].
  - apply rdp_scan_bound in Hscan; [|assumption]. destruct Hscan as [Hidx _].
    apply IH in R1, R2.
    rewrite slice_prefix in R1. rewrite slice_suffix in R2 by lia.
    destruct (nth_error points index) as [pk|] eqn:Hk;
      [|apply nth_error_None in Hk; lia].
    rewrite (firstn_S_snoc points index pk Hk) in R1.
    apply subseq_removelast_snoc in R1.
    rewrite slice_removelast. rewrite <- (firstn_skipn index points).
    now apply subseq_app.
Qed.

(** X1: a list returned by [ramerDouglasPeucker] is a subsequence of the
    input: it holds points of the input only, in the order of the input; it
    has at least two points when the input has. *)
Theorem ramerDouglasPeucker_subsequence (points : list Point) (epsilon : float)
    (r : list Point) :
  ramerDouglasPeucker points epsilon = Returns r ->
  subseq r points /\
  (forall p, In p r -> In p points) /\
  ((2 <= length points)%nat -> (2 <= length r)%nat).
Proof.
  unfold ramerDouglasPeucker. intros H.
  pose proof (rdp_subseq _ _ _ _ H) as S.
  split; [assumption|]. split.
  - intros p. now apply subseq_In.
  - apply rdp_returns_post in H. apply H.
Qed.

Lemma ramerDouglasPeucker_subsequence_witness :
  ramerDouglasPeucker perimeter 5 = Returns [pt 0 0; pt 30 0; pt 30 20; pt 0 20; pt 0 10] /\
  subseq [pt 0 0; pt 30 0; pt 30 20; pt 0 20; pt 0 10] perimeter.
Proof.
  split; [vm_compute; reflexivity|].
  apply (ramerDouglasPeucker_subsequence perimeter 5). vm_compute. reflexivity.
Defined.

(** ** Order of binary64 numbers: NaN and totality *)

Lemma SFcompare_opp (a b : spec_float) (o : comparison) :
  SFcompare a b = Some o -> SFcompare b a = Some (CompOpp o).
Proof.
  destruct a as [sa|sa| |sa ma ea], b as [sb|sb| |sb mb eb];
    simpl; try discriminate;
    try destruct sa; try destruct sb; simpl;
    try discriminate; intros H; injection H as <-; try reflexivity;
    change (Pos.compare_cont Eq) with Pos.compare;
    rewrite (Z.compare_antisym ea eb);
    destruct (Z.compare ea eb); simpl; try reflexivity;
    rewrite (Pos.compare_antisym ma mb);
    destruct (Pos.compare ma mb); reflexivity.
Qed.

Lemma SFcompare_None (a b : spec_float) :
  SFcompare a b = None -> a = S754_nan \/ b = S754_nan.
Proof.
  destruct a as [sa|sa| |sa ma ea], b as [sb|sb| |sb mb eb]; simpl; auto;
    try destruct sa; try destruct sb; try discriminate;
    destruct (Z.compare ea eb); discriminate.
Qed.

Lemma SFcompare_refl (a : spec_float) : a <> S754_nan -> SFcompare a a = Some Eq.
Proof.
  destruct a as [sa|sa| |sa ma ea]; simpl; try congruence; intros _;
    try (destruct sa; reflexivity).
  change (Pos.compare_cont Eq) with Pos.compare.
  destruct sa; rewrite Z.compare_refl, Pos.compare_refl; reflexivity.
Qed.

Lemma is_nan_spec (a : float) : PrimFloat.is_nan a = true <-> Prim2SF a = S754_nan.
Proof.
  unfold PrimFloat.is_nan. rewrite FloatAxioms.eqb_spec. unfold SFeqb. split.
  - intros H. destruct (Prim2SF a) eqn:E; try reflexivity;
      rewrite SFcompare_refl in H by discriminate; discriminate.
  - intros ->. reflexivity.
Qed.

Lemma is_nan_false (a : float) : PrimFloat.is_nan a = false <-> Prim2SF a <> S754_nan.
Proof.
  rewrite <- is_nan_spec. destruct (PrimFloat.is_nan a); split; congruence.
Qed.

(** A comparison with NaN is false; two numbers are ordered one way or the
    other. *)
Lemma ltb_not_nan (a b : float) :
  PrimFloat.ltb a b = true -> PrimFloat.is_nan a = false /\ PrimFloat.is_nan b = false.
Proof.
  rewrite ltb_compare, !is_nan_false. intros H.
  split; intros E; rewrite E in H; [|destruct (Prim2SF a)]; discriminate.
Qed.

Lemma leb_not_nan (a b : float) :
  PrimFloat.leb a b = true -> PrimFloat.is_nan a = false /\ PrimFloat.is_nan b = false.
Proof.
  rewrite leb_compare, !is_nan_false. intros (o & H & _).
  split; intros E; rewrite E in H; [|destruct (Prim2SF a)]; discriminate.
Qed.

Lemma ltb_total (a b : float) :
  PrimFloat.is_nan a = false -> PrimFloat.is_nan b = false ->
  PrimFloat.ltb a b = false -> PrimFloat.leb b a = true.
Proof.
  rewrite !is_nan_false, FloatAxioms.ltb_spec, FloatAxioms.leb_spec.
  unfold SFltb, SFleb. intros Ha Hb.
  destruct (SFcompare (Prim2SF a) (Prim2SF b)) as [o|] eqn:E.
  - rewrite (SFcompare_opp _ _ _ E). now destruct o.
  - apply SFcompare_None in E. tauto.
Qed.

Lemma leb_not_ltb (a b : float) :
  PrimFloat.leb a b = true -> PrimFloat.ltb b a = false.
Proof.
  rewrite FloatAxioms.ltb_spec, FloatAxioms.leb_spec. unfold SFltb, SFleb.
  destruct (SFcompare (Prim2SF a) (Prim2SF b)) as [o|] eqn:E; [|discriminate].
  rewrite (SFcompare_opp _ _ _ E). now destruct o.
Qed.

Lemma leb_refl (a : float) : PrimFloat.is_nan a = false -> PrimFloat.leb a a = true.
Proof.
  rewrite is_nan_false, FloatAxioms.leb_spec. unfold SFleb. intros H.
  now rewrite SFcompare_refl.
Qed.

Lemma ltb_nan_r (a b : float) : PrimFloat.is_nan b = true -> PrimFloat.ltb a b = false.
Proof.
  intros H. destruct (PrimFloat.ltb a b) eqn:E; [|reflexivity].
  apply ltb_not_nan in E. destruct E; congruence.
Qed.

(** ** The scan finds the largest distance *)

Lemma rdp_scan_max (first last : Point) (mid : list Point) :
  forall i dmax index dmax' index',
    PrimFloat.is_nan dmax = false ->
    rdp_scan first last mid i dmax index = (dmax', index') ->
    PrimFloat.is_nan dmax' = false /\
    PrimFloat.leb dmax dmax' = true /\
    forall p, In p mid ->
      PrimFloat.ltb dmax' (perpendicularDistance p first last) = false.
Proof.
  induction mid as [|q mid IH]; intros i dmax index dmax' index' Hn H; simpl in H.
  - injection H as <- <-. repeat split; [assumption | now apply leb_refl | intros p []].
  - destruct (PrimFloat.ltb dmax (perpendicularDistance q first last)) eqn:E.
    + pose proof (ltb_not_nan _ _ E) as [_ Hq].
      destruct (IH _ _ _ _ _ Hq H) as (N & L & M).
      repeat split; [assumption | |].
      * apply leb_trans with (perpendicularDistance q first last);
          [now apply ltb_leb | assumption].
      * intros p [<-|Hp]; [now apply leb_not_ltb | now apply M].
    + destruct (IH _ _ _ _ _ Hn H) as (N & L & M).
      repeat split; [assumption | assumption |].
      intros p [<-|Hp]; [|now apply M].
      destruct (PrimFloat.is_nan (perpendicularDistance q first last)) eqn:Np;
        [now apply ltb_nan_r|].
      apply leb_not_ltb. apply leb_trans with dmax; [|assumption].
      now apply ltb_total.
Qed.

(** The largest distance is the initial one or that of a scanned point. *)
Lemma rdp_scan_attained (first last : Point) (mid : list Point) :
  forall i dmax index dmax' index',
    rdp_scan first last mid i dmax index = (dmax', index') ->
    dmax' = dmax \/ exists p, In p mid /\ dmax' = perpendicularDistance p first last.
Proof.
  induction mid as [|q mid IH]; intros i dmax index dmax' index' H; simpl in H.
  - injection H as <- <-. now left.
  - destruct (PrimFloat.ltb dmax (perpendicularDistance q first last));
      apply IH in H; destruct H as [->|(p & Hp & ->)];
      try (now left); right; [exists q|exists p|exists p]; simpl; auto.
Qed.

Lemma is_nan_zero : PrimFloat.is_nan 0 = false.
Proof. reflexivity. Qed.

(** ** What the simplifier drops *)










(** ** When the simplifier collapses a stroke *)

Lemma rdp_scan_below (first last : Point) (mid : list Point) (epsilon : float) :
  forall i dmax index dmax' index',
    rdp_scan first last mid i dmax index = (dmax', index') ->
    PrimFloat.ltb epsilon dmax = false ->
    (forall p, In p mid ->
       PrimFloat.ltb epsilon (perpendicularDistance p first last) = false) ->
    PrimFloat.ltb epsilon dmax' = false.
Proof.
  intros i dmax index dmax' index' H He Hm.
  apply rdp_scan_attained in H. destruct H as [->|(p & Hp & ->)]; auto.
Qed.

(** X3: for a tolerance that is not negative (NaN included), a stroke of
    three points or more is collapsed to its two end points exactly when no
    point in between lies farther than the tolerance from the chord between
    the first and the last point; otherwise the result has three points or
    more. *)
Theorem ramerDouglasPeucker_collapse (points : list Point) (epsilon : float)
    (first last : Point) (r : list Point) :
  PrimFloat.ltb epsilon 0 = false ->
  (3 <= length points)%nat ->
  nth_error points 0 = Some first ->
  nth_error points (length points - 1) = Some last ->
  ramerDouglasPeucker points epsilon = Returns r ->
  ((forall p, In p (slice 1 (length points - 1) points) ->
      PrimFloat.ltb epsilon (perpendicularDistance p first last) = false) ->
   r = [first; last]) /\
  ((exists p, In p (slice 1 (length points - 1) points) /\
      PrimFloat.ltb epsilon (perpendicularDistance p first last) = true) ->
   (3 <= length r)%nat).
Proof.
  intros He Hlen H0 H1 H. unfold ramerDouglasPeucker in H.
  apply rdp_cases in H.
  destruct H as [[Hs _]|(fuel' & first' & last' & dmax & index & Hf & _ & H0' & H1' & Hscan & H)];
    [lia|].
  assert (first' = first) by congruence. assert (last' = last) by congruence.
  subst first' last'.
  destruct H as [[Hd ->]|(Hd & r1 & r2 & R1 & R2 & ->)]; split.
  - reflexivity.
  - intros (p & Hp & Hfar).
    destruct (rdp_scan_max _ _ _ _ _ _ _ _ is_nan_zero Hscan) as (N & L & M).
    specialize (M p Hp). destruct (ltb_not_nan _ _ Hfar) as [_ Nd].
    rewrite (ltb_leb_trans epsilon (perpendicularDistance p first last) dmax) in Hd;
      [discriminate | assumption | now apply ltb_total].
  - intros Hall.
    rewrite (rdp_scan_below _ _ _ epsilon _ _ _ _ _ Hscan He Hall) in Hd. discriminate.
  - intros _.
    pose proof (rdp_scan_bound _ _ _ _ _ Hlen Hscan) as [Hidx Hz].
    assert (Hi : (index <> 0)%nat).
    { intros E. rewrite (Hz E) in Hd. congruence. }
    apply rdp_returns_post in R1, R2.
    destruct R1 as (_ & T1 & _). destruct R2 as (_ & T2 & _).
    rewrite slice_length in T1, T2.
    rewrite length_app, slice_length. lia.
Qed.

Lemma ramerDouglasPeucker_collapse_witness :
  ((forall p, In p (slice 1 (length slanted - 1) slanted) ->
      PrimFloat.ltb 5 (perpendicularDistance p (pt 0 0) (pt 27 9)) = false) ->
   [pt 0 0; pt 27 9] = [pt 0 0; pt 27 9]) /\
  ((exists p, In p (slice 1 (length slanted - 1) slanted) /\
      PrimFloat.ltb 5 (perpendicularDistance p (pt 0 0) (pt 27 9)) = true) ->
   (3 <= length [pt 0 0; pt 27 9])%nat).
Proof.
  apply (ramerDouglasPeucker_collapse slanted 5 (pt 0 0) (pt 27 9) [pt 0 0; pt 27 9]).
  - reflexivity.
  - simpl; lia.
  - reflexivity.
  - reflexivity.
  - vm_compute. reflexivity.
Defined.

(** ** Magnitudes *)

(** The rounding of a result does not look at its sign. *)
Lemma binary_round_aux_abs (s s' : bool) (mx ex : Z) (lx : location) :
  SFabs (binary_round_aux prec emax s mx ex lx)
  = SFabs (binary_round_aux prec emax s' mx ex lx).
Proof.
  unfold binary_round_aux.
  destruct (shr_fexp prec emax mx ex lx) as [mrs' e'].
  destruct (shr_fexp prec emax _ e' loc_Exact) as [mrs'' e''].
  destruct (shr_m mrs''); try reflexivity.
  destruct (e'' <=? _)%Z; reflexivity.
Qed.

Lemma binary_round_abs (s s' : bool) (m : positive) (e : Z) :
  SFabs (binary_round prec emax s m e) = SFabs (binary_round prec emax s' m e).
Proof.
  unfold binary_round. destruct (shl_align m e _). apply binary_round_aux_abs.
Qed.

Lemma binary_normalize_abs (m e : Z) :
  SFabs (binary_normalize prec emax (- m) e false)
  = SFabs (binary_normalize prec emax m e false).
Proof. destruct m; simpl; try reflexivity; apply binary_round_abs. Qed.

(** [a - b] and [b - a] have the same magnitude. *)
Lemma SFsub_swap_abs (a b : spec_float) : SFabs (SF64sub a b) = SFabs (SF64sub b a).
Proof.
  destruct a as [sa|sa| |sa ma ea], b as [sb|sb| |sb mb eb];
    try reflexivity; try (destruct sa, sb; reflexivity).
  unfold SF64sub, SFsub. cbv zeta.
  change (IntDef.Z.min eb ea) with (Z.min eb ea).
  change (IntDef.Z.min ea eb) with (Z.min ea eb).
  rewrite (Z.min_comm eb ea).
  rewrite <- binary_normalize_abs. f_equal. f_equal.
  lia.
Qed.

(** A square depends on the magnitude only. *)
Lemma SFmul_self_abs (a b : spec_float) :
  SFabs a = SFabs b -> SF64mul a a = SF64mul b b.
Proof.
  destruct a as [sa|sa| |sa ma ea], b as [sb|sb| |sb mb eb];
    simpl; try discriminate; intros H; try reflexivity;
    try (now destruct sa, sb).
  injection H as -> ->.
  replace (xorb sa sa) with (xorb sb sb) by (now destruct sa, sb). reflexivity.
Qed.

Lemma square_sub_swap (a b : float) : (a - b) * (a - b) = (b - a) * (b - a).
Proof.
  apply Prim2SF_inj. rewrite !FloatAxioms.mul_spec, !FloatAxioms.sub_spec.
  apply SFmul_self_abs, SFsub_swap_abs.
Qed.

(** X4: the distance between two points does not depend on their order, bit
    for bit. *)
Theorem getDistance_symmetric (p1 p2 : Point) : getDistance p1 p2 = getDistance p2 p1.
Proof.
  unfold getDistance.
  now rewrite (square_sub_swap (x p2) (x p1)), (square_sub_swap (y p2) (y p1)).
Qed.

(** ** Signs of the measures *)

Lemma SFsqrt_sign (a : spec_float) : SFsign_is false a -> SFsign_is false (SF64sqrt a).
Proof.
  destruct a as [s|s| |s m e]; simpl; intros H; subst; simpl; auto.
  destruct (SFsqrt_core_binary prec emax (Zpos m) e) as [[mz ez] lz].
  apply binary_round_aux_sign.
Qed.

Lemma sqrt_sign (a : float) :
  SFsign_is false (Prim2SF a) -> SFsign_is false (Prim2SF (PrimFloat.sqrt a)).
Proof. rewrite FloatAxioms.sqrt_spec. apply SFsqrt_sign. Qed.

Lemma sum_of_squares_sign (a b : float) : SFsign_is false (Prim2SF (a * a + b * b)).
Proof. apply add_sign; apply mul_self_sign. Qed.

Lemma getDistance_sign (p1 p2 : Point) : SFsign_is false (Prim2SF (getDistance p1 p2)).
Proof. apply sqrt_sign, sum_of_squares_sign. Qed.

Lemma getPathLength_loop_sign (rest : list Point) :
  forall prev len,
    SFsign_is false (Prim2SF len) ->
    SFsign_is false (Prim2SF (getPathLength_loop prev rest len)).
Proof.
  induction rest as [|p rest IH]; intros prev len H; simpl; [assumption|].
  apply IH, add_sign; [assumption | apply getDistance_sign].
Qed.

Lemma SFsign_not_lt_zero (a : float) :
  SFsign_is false (Prim2SF a) -> PrimFloat.ltb a 0 = false.
Proof.
  rewrite FloatAxioms.ltb_spec, Prim2SF_zero. unfold SFltb.
  destruct (Prim2SF a) as [s|s| |s m e]; simpl; intros H; subst; reflexivity.
Qed.

(** X5: a distance, a distance to a chord and a path length are never
    negative: each is NaN or a number with a clear sign bit, so that none is
    below 0 and none is the negative zero. *)
Theorem distances_not_negative (p q a b : Point) (points : list Point) :
  SFsign_is false (Prim2SF (getDistance p q)) /\
  SFsign_is false (Prim2SF (perpendicularDistance p a b)) /\
  SFsign_is false (Prim2SF (getPathLength points)) /\
  PrimFloat.ltb (getDistance p q) 0 = false /\
  PrimFloat.ltb (perpendicularDistance p a b) 0 = false /\
  PrimFloat.ltb (getPathLength points) 0 = false.
Proof.
  assert (D : SFsign_is false (Prim2SF (getDistance p q))) by apply getDistance_sign.
  assert (P : SFsign_is false (Prim2SF (perpendicularDistance p a b)))
    by (unfold perpendicularDistance; cbv zeta; apply sqrt_sign, sum_of_squares_sign).
  assert (L : SFsign_is false (Prim2SF (getPathLength points))).
  { destruct points as [|p0 rest]; cbn [getPathLength]; [now rewrite Prim2SF_zero|].
    apply getPathLength_loop_sign. now rewrite Prim2SF_zero. }
  repeat split; auto using SFsign_not_lt_zero.
Qed.

(** ** Path length *)

Lemma last_cons {A : Type} (l : list A) :
  forall a d, last (a :: l) d = last l a.
Proof.
  induction l as [|b l IH]; intros a d; [reflexivity|].
  change (last (a :: b :: l) d) with (last (b :: l) d). now rewrite !IH.
Qed.

Lemma getPathLength_loop_snoc (rest : list Point) :
  forall prev len p,
    getPathLength_loop prev (rest ++ [p]) len
    = getPathLength_loop prev rest len + getDistance (last rest prev) p.
Proof.
  induction rest as [|q rest IH]; intros prev len p; [reflexivity|].
  change (getPathLength_loop prev ((q :: rest) ++ [p]) len)
    with (getPathLength_loop q (rest ++ [p]) (len + getDistance prev q)).
  rewrite IH, last_cons. reflexivity.
Qed.

(** X6: a stroke extended by one point is longer by the distance from its
    former last point to the new one: the length is accumulated from the
    left, one segment at a time. *)
Theorem getPathLength_snoc (points : list Point) (p d : Point) :
  points <> [] ->
  getPathLength (points ++ [p])
  = getPathLength points + getDistance (last points d) p.
Proof.
  destruct points as [|p0 rest]; [congruence|]. intros _.
  change (getPathLength ((p0 :: rest) ++ [p]))
    with (getPathLength_loop p0 (rest ++ [p]) 0).
  rewrite getPathLength_loop_snoc, last_cons. reflexivity.
Qed.

Lemma getPathLength_snoc_witness :
  getPathLength ([pt 0 0; pt 3 4] ++ [pt 3 10])
  = getPathLength [pt 0 0; pt 3 4] + getDistance (last [pt 0 0; pt 3 4] (pt 0 0)) (pt 3 10).
Proof. apply (getPathLength_snoc [pt 0 0; pt 3 4]). discriminate. Defined.

(** ** The distance of a point to itself *)

Lemma Prim2SF_nan : Prim2SF PrimFloat.nan = S754_nan.
Proof. reflexivity. Qed.

Lemma is_nan_eq (a : float) : Prim2SF a = S754_nan -> a = PrimFloat.nan.
Proof. intros H. apply Prim2SF_inj. now rewrite H. Qed.

Lemma not_finite_spec (a : float) :
  PrimFloat.is_finite a = false -> SFnot_finite (Prim2SF a).
Proof.
  unfold PrimFloat.is_finite, PrimFloat.is_nan, PrimFloat.is_infinity.
  rewrite !FloatAxioms.eqb_spec, FloatAxioms.abs_spec.
  replace (Prim2SF PrimFloat.infinity) with (S754_infinity false)
    by (vm_compute; reflexivity).
  destruct (Prim2SF a) as [s|s| |s m e] eqn:E; cbn [SFnot_finite]; auto;
    unfold SFeqb; rewrite SFcompare_refl by discriminate; cbn; discriminate.
Qed.

Lemma sub_self_not_finite (a : float) :
  PrimFloat.is_finite a = false -> a - a = PrimFloat.nan.
Proof.
  intros H. apply not_finite_spec in H. apply is_nan_eq.
  rewrite FloatAxioms.sub_spec.
  destruct (Prim2SF a) as [s|s| |s m e]; simpl in H; try tauto; now destruct s.
Qed.

Lemma sqrt_nan_l (b : float) : PrimFloat.sqrt (PrimFloat.nan * PrimFloat.nan + b) = PrimFloat.nan.
Proof.
  apply is_nan_eq.
  rewrite FloatAxioms.sqrt_spec, FloatAxioms.add_spec, FloatAxioms.mul_spec, Prim2SF_nan.
  reflexivity.
Qed.

Lemma sqrt_nan_r (a : float) : PrimFloat.sqrt (a + PrimFloat.nan * PrimFloat.nan) = PrimFloat.nan.
Proof.
  apply is_nan_eq.
  rewrite FloatAxioms.sqrt_spec, FloatAxioms.add_spec, FloatAxioms.mul_spec, Prim2SF_nan.
  now destruct (Prim2SF a).
Qed.

Lemma getDistance_self_value (p : Point) :
  getDistance p p
  = if PrimFloat.is_finite (x p) && PrimFloat.is_finite (y p) then 0 else PrimFloat.nan.
Proof.
  destruct (PrimFloat.is_finite (x p)) eqn:Hx; cbn [andb].
  - destruct (PrimFloat.is_finite (y p)) eqn:Hy.
    + now apply getDistance_self.
    + unfold getDistance. rewrite (sub_self_not_finite (y p) Hy). apply sqrt_nan_r.
  - unfold getDistance. rewrite (sub_self_not_finite (x p) Hx). apply sqrt_nan_l.
Qed.

(** X7: the distance of a point to itself is 0 when both its coordinates are
    finite, and NaN when one of them is infinite or NaN. *)
Theorem getDistance_to_itself (p : Point) :
  getDistance p p
  = if PrimFloat.is_finite (x p) && PrimFloat.is_finite (y p) then 0 else PrimFloat.nan.
Proof. apply getDistance_self_value. Qed.

(** ** A chord of length zero *)

Lemma zero_chord_component (v w : float) :
  PrimFloat.is_finite v = true -> PrimFloat.is_finite w = true ->
  (v - (0 * v + 0 * w) * 0) * (v - (0 * v + 0 * w) * 0) = v * v /\
  (w - (0 * v + 0 * w) * 0) * (w - (0 * v + 0 * w) * 0) = w * w.
Proof.
  intros Hv Hw. apply is_finite_spec in Hv, Hw.
  split; apply Prim2SF_inj; rewrite !FloatAxioms.mul_spec; apply SFmul_self_abs;
    rewrite FloatAxioms.sub_spec, !FloatAxioms.mul_spec, FloatAxioms.add_spec,
      !FloatAxioms.mul_spec, Prim2SF_zero;
    destruct (Prim2SF v) as [sv|sv| |sv mv ev], (Prim2SF w) as [sw|sw| |sw mw ew];
    try tauto; destruct sv, sw; reflexivity.
Qed.

(** X8: when the chord has length zero (both ends at one point with finite
    coordinates), nothing is divided, and the distance of a point to the
    chord is its plain distance to that point, provided the two coordinate
    differences are finite. *)
Theorem perpendicularDistance_zero_chord (point lineStart : Point) :
  PrimFloat.is_finite (x lineStart) = true ->
  PrimFloat.is_finite (y lineStart) = true ->
  PrimFloat.is_finite (x point - x lineStart) = true ->
  PrimFloat.is_finite (y point - y lineStart) = true ->
  perpendicularDistance point lineStart lineStart = getDistance lineStart point.
Proof.
  intros Hx Hy Hvx Hvy. unfold perpendicularDistance, getDistance.
  rewrite (sub_self _ Hx), (sub_self _ Hy). cbv zeta.
  replace (PrimFloat.ltb 0 (PrimFloat.sqrt (0 * 0 + 0 * 0))) with false
    by (vm_compute; reflexivity).
  destruct (zero_chord_component _ _ Hvx Hvy) as [-> ->]. reflexivity.
Qed.

Lemma perpendicularDistance_zero_chord_witness :
  perpendicularDistance (pt 3 4) (pt 0 0) (pt 0 0) = getDistance (pt 0 0) (pt 3 4).
Proof.
  apply (perpendicularDistance_zero_chord (pt 3 4) (pt 0 0)); reflexivity.
Defined.

(** ** The bounding box *)

Lemma running_min {A : Type} (f : A -> float) (l : list A) :
  forall m,
    PrimFloat.is_nan m = false ->
    let m' := fold_left (fun m p => if PrimFloat.ltb (f p) m then f p else m) l m in
    PrimFloat.is_nan m' = false /\
    PrimFloat.leb m' m = true /\
    (forall p, In p l -> PrimFloat.is_nan (f p) = false -> PrimFloat.leb m' (f p) = true) /\
    (m' = m \/ exists p, In p l /\ m' = f p).
Proof.
  induction l as [|q l IH]; intros m Hm; cbn [fold_left]; cbv zeta.
  - repeat split; [assumption | now apply leb_refl | intros p [] | now left].
  - destruct (PrimFloat.ltb (f q) m) eqn:E.
    + destruct (ltb_not_nan _ _ E) as [Hq _].
      destruct (IH (f q) Hq) as (N & L & M & At).
      repeat split; [assumption | | |].
      * apply leb_trans with (f q); [assumption | now apply ltb_leb].
      * intros p [<-|Hp] Hn; [assumption | now apply M].
      * right. destruct At as [->|(p & Hp & ->)];
          [exists q | exists p]; simpl; auto.
    + destruct (IH m Hm) as (N & L & M & At).
      repeat split; [assumption | assumption | |].
      * intros p [<-|Hp] Hn; [|now apply M].
        apply leb_trans with m; [assumption | now apply ltb_total].
      * destruct At as [->|(p & Hp & ->)]; [now left|].
        right. exists p. simpl; auto.
Qed.

Lemma running_max {A : Type} (f : A -> float) (l : list A) :
  forall m,
    PrimFloat.is_nan m = false ->
    let m' := fold_left (fun m p => if PrimFloat.ltb m (f p) then f p else m) l m in
    PrimFloat.is_nan m' = false /\
    PrimFloat.leb m m' = true /\
    (forall p, In p l -> PrimFloat.is_nan (f p) = false -> PrimFloat.leb (f p) m' = true) /\
    (m' = m \/ exists p, In p l /\ m' = f p).
Proof.
  induction l as [|q l IH]; intros m Hm; cbn [fold_left]; cbv zeta.
  - repeat split; [assumption | now apply leb_refl | intros p [] | now left].
  - destruct (PrimFloat.ltb m (f q)) eqn:E.
    + destruct (ltb_not_nan _ _ E) as [_ Hq].
      destruct (IH (f q) Hq) as (N & L & M & At).
      repeat split; [assumption | | |].
      * apply leb_trans with (f q); [now apply ltb_leb | assumption].
      * intros p [<-|Hp] Hn; [assumption | now apply M].
      * right. destruct At as [->|(p & Hp & ->)];
          [exists q | exists p]; simpl; auto.
    + destruct (IH m Hm) as (N & L & M & At).
      repeat split; [assumption | assumption | |].
      * intros p [<-|Hp] Hn; [|now apply M].
        apply leb_trans with m; [now apply ltb_total | assumption].
      * destruct At as [->|(p & Hp & ->)]; [now left|].
        right. exists p. simpl; auto.
Qed.

(** The four bounds are computed independently of one another. *)
Lemma fold_bbox (l : list Point) :
  forall b,
    fold_left bbox_step l b
    = mkBBox
        (fold_left (fun m p => if PrimFloat.ltb (x p) m then x p else m) l (minX b))
        (fold_left (fun m p => if PrimFloat.ltb m (x p) then x p else m) l (maxX b))
        (fold_left (fun m p => if PrimFloat.ltb (y p) m then y p else m) l (minY b))
        (fold_left (fun m p => if PrimFloat.ltb m (y p) then y p else m) l (maxY b)).
Proof.
  induction l as [|q l IH]; intros b; [now destruct b|].
  cbn [fold_left]. rewrite IH. reflexivity.
Qed.

(** X9: the bounding box contains the stroke: a coordinate that is not NaN
    lies between the two bounds computed for it; each bound is the
    coordinate of a point of the stroke or the infinity it started from, and
    is never NaN. *)
Theorem boundingBox_contains (originalPoints : list Point) :
  let b := boundingBox originalPoints in
  (forall p, In p originalPoints ->
     (PrimFloat.is_nan (x p) = false ->
      PrimFloat.leb (minX b) (x p) = true /\ PrimFloat.leb (x p) (maxX b) = true) /\
     (PrimFloat.is_nan (y p) = false ->
      PrimFloat.leb (minY b) (y p) = true /\ PrimFloat.leb (y p) (maxY b) = true)) /\
  (minX b = PrimFloat.infinity \/ exists p, In p originalPoints /\ minX b = x p) /\
  (maxX b = PrimFloat.neg_infinity \/ exists p, In p originalPoints /\ maxX b = x p) /\
  (minY b = PrimFloat.infinity \/ exists p, In p originalPoints /\ minY b = y p) /\
  (maxY b = PrimFloat.neg_infinity \/ exists p, In p originalPoints /\ maxY b = y p) /\
  PrimFloat.is_nan (minX b) = false /\ PrimFloat.is_nan (maxX b) = false /\
  PrimFloat.is_nan (minY b) = false /\ PrimFloat.is_nan (maxY b) = false.
Proof.
  unfold boundingBox. rewrite fold_bbox. cbn [minX maxX minY maxY]. cbv zeta.
  destruct (running_min x originalPoints PrimFloat.infinity eq_refl) as (N1 & _ & M1 & A1).
  destruct (running_max x originalPoints PrimFloat.neg_infinity eq_refl) as (N2 & _ & M2 & A2).
  destruct (running_min y originalPoints PrimFloat.infinity eq_refl) as (N3 & _ & M3 & A3).
  destruct (running_max y originalPoints PrimFloat.neg_infinity eq_refl) as (N4 & _ & M4 & A4).
  repeat split; auto.
Qed.

Lemma boundingBox_contains_witness :
  PrimFloat.leb (minX (boundingBox perimeter)) (x (pt 30 10)) = true /\
  PrimFloat.leb (x (pt 30 10)) (maxX (boundingBox perimeter)) = true.
Proof.
  apply (proj1 (boundingBox_contains perimeter) (pt 30 10)).
  - simpl. auto 10.
  - reflexivity.
Defined.

(** ** Measures of a stroke *)

Lemma abs_sign (a : float) : SFsign_is false (Prim2SF (PrimFloat.abs a)).
Proof. rewrite FloatAxioms.abs_spec. now destruct (Prim2SF a). Qed.

Lemma sum_distances_sign (c : Point) (l : list Point) :
  forall acc,
    SFsign_is false (Prim2SF acc) ->
    SFsign_is false (Prim2SF (fold_left (fun a p => a + getDistance p c) l acc)).
Proof.
  induction l as [|p l IH]; intros acc Hacc; simpl; [assumption|].
  apply IH. apply add_sign; [assumption | apply getDistance_sign].
Qed.

(** X10: the measures the classifier derives from a stroke are never
    negative: the diagonal of the bounding box, the shoelace area, the mean
    radius and the variance of the radii are NaN or have a clear sign bit;
    none is below 0. *)
Theorem measures_not_negative (originalPoints : list Point) :
  (SFsign_is false (Prim2SF (diag originalPoints)) /\
   SFsign_is false (Prim2SF (polygonArea originalPoints)) /\
   SFsign_is false (Prim2SF (avgRadius originalPoints)) /\
   SFsign_is false (Prim2SF (radiusVariance originalPoints))) /\
  (PrimFloat.ltb (diag originalPoints) 0 = false /\
   PrimFloat.ltb (polygonArea originalPoints) 0 = false /\
   PrimFloat.ltb (avgRadius originalPoints) 0 = false /\
   PrimFloat.ltb (radiusVariance originalPoints) 0 = false).
Proof.
  assert (Z0 : SFsign_is false (Prim2SF 0)) by now rewrite Prim2SF_zero.
  assert (D : SFsign_is false (Prim2SF (diag originalPoints)))
    by (apply sqrt_sign, sum_of_squares_sign).
  assert (P : SFsign_is false (Prim2SF (polygonArea originalPoints))).
  { unfold polygonArea.
    destruct originalPoints; (apply div_sign; [apply abs_sign | reflexivity]). }
  assert (A : SFsign_is false (Prim2SF (avgRadius originalPoints))).
  { apply div_sign; [|apply lengthF_sign]. now apply sum_distances_sign. }
  assert (V : SFsign_is false (Prim2SF (radiusVariance originalPoints))).
  { apply div_sign; [|apply lengthF_sign].
    now apply (sum_squares_sign
                 (fun p => getDistance p (center originalPoints) - avgRadius originalPoints)). }
  repeat split; auto using SFsign_not_lt_zero.
Qed.

(** ** The tolerance of the classifier *)

(** X11: the tolerance handed to the simplifier is NaN (exactly when the
    diagonal of the bounding box is) or the larger of 5 and 0.04 times the
    diagonal: one of the two, at least 5 and at least 0.04 times the
    diagonal. *)
Theorem epsilonOf_at_least_5 (originalPoints : list Point) :
  let e := epsilonOf originalPoints in
  let d := diag originalPoints * 0.04 in
  (PrimFloat.is_nan d = true /\ e = PrimFloat.nan) \/
  (PrimFloat.is_nan d = false /\ (e = 5 \/ e = d) /\
   PrimFloat.leb 5 e = true /\ PrimFloat.leb d e = true).
Proof.
  cbv zeta. unfold epsilonOf, Math_max.
  replace (PrimFloat.is_nan 5) with false by reflexivity. cbn [orb].
  destruct (PrimFloat.is_nan (diag originalPoints * 0.04)) eqn:N; [now left|].
  right. split; [reflexivity|].
  destruct (PrimFloat.ltb 5 (diag originalPoints * 0.04)) eqn:L1.
  - split; [now right | split; [now apply ltb_leb | now apply leb_refl]].
  - destruct (PrimFloat.ltb (diag originalPoints * 0.04) 5) eqn:L2.
    + split; [now left | split; [reflexivity | now apply ltb_leb]].
    + replace (PrimFloat.get_sign 5) with false by reflexivity.
      split; [now left | split; [reflexivity | now apply ltb_total]].
Qed.

(** ** The array the simplifier returns *)

Lemma Store_rdp_short (fuel : nat) (h : Store.heap) (a : Store.addr) (pts : list Point)
    (epsilon : float) :
  nth_error h a = Some pts -> (length pts < 3)%nat ->
  Store.rdp fuel a epsilon h = Returns (a, h).
Proof.
  intros Ha Hs. rewrite Store_rdp_eq, (run_lengthA h a pts Ha).
  apply Nat.ltb_lt in Hs. now rewrite Hs.
Qed.

Lemma Store_rdp_fresh (fuel : nat) (h : Store.heap) (a : Store.addr) (pts : list Point)
    (epsilon : float) (r : list Point) :
  nth_error h a = Some pts ->
  rdp fuel pts epsilon = Returns r ->
  (3 <= length pts)%nat ->
  exists h', Store.rdp fuel a epsilon h = Returns (length h', h' ++ [r]) /\ extends h h'.
Proof.
  intros Ha H Hlen. apply rdp_cases in H.
  destruct H as [[Hs _]|(fuel' & first & last & dmax & index & -> & _ & H0 & H1 & Hscan & H)];
    [lia|].
  rewrite Store_rdp_eq, (run_lengthA h a pts Ha).
  replace (length pts <? 3)%nat with false by (symmetry; apply Nat.ltb_ge; lia).
  cbv zeta.
  rewrite (run_getA h a pts Ha 0 first) by assumption.
  rewrite (run_getA h a pts Ha (length pts - 1) last) by assumption.
  rewrite (run_load h a pts Ha). rewrite Hscan.
  destruct H as [[-> ->]|(-> & r1 & r2 & R1 & R2 & ->)].
  - exists h. split; [reflexivity | apply extends_refl].
  - rewrite (run_sliceA h a pts Ha).
    destruct (Store_rdp_refines _ _ (length h) _ epsilon r1 (lookup_snoc h _) R1)
      as (b1 & h1 & E1 & X1 & L1 & _).
    unfold Store.bind at 1. rewrite E1.
    assert (Xh1 : extends h h1) by (eapply extends_trans; [apply extends_snoc | exact X1]).
    rewrite (run_sliceA h1 a pts (extends_lookup h h1 a pts Xh1 Ha)).
    destruct (Store_rdp_refines _ _ (length h1) _ epsilon r2 (lookup_snoc h1 _) R2)
      as (b2 & h2 & E2 & X2 & L2 & _).
    unfold Store.bind at 1. rewrite E2.
    assert (X12 : extends h1 h2) by (eapply extends_trans; [apply extends_snoc | exact X2]).
    pose proof (extends_lookup h1 h2 b1 r1 X12 L1) as L1'.
    rewrite (run_lengthA h2 b1 r1 L1').
    rewrite (run_sliceA h2 b1 r1 L1').
    rewrite (run_concatA (h2 ++ [slice 0 (length r1 - 1) r1]) (length h2) b2
               (slice 0 (length r1 - 1) r1) r2);
      [|apply lookup_snoc | eapply extends_lookup; [apply extends_snoc | exact L2]].
    eexists. split; [reflexivity|].
    eapply extends_trans; [exact Xh1|]. eapply extends_trans; [exact X12|].
    apply extends_snoc.
Qed.

(** X12: on fewer than three points the simplifier returns the very array
    it was given, not a copy, and allocates nothing; on three points or more
    it returns an array allocated by the call (the last one), which holds the
    result, and every array that existed before is where it was, as it
    was. *)
Theorem ramerDouglasPeucker_aliasing (h : Store.heap) (a : Store.addr)
    (pts : list Point) (epsilon : float) (r : list Point) :
  nth_error h a = Some pts ->
  ramerDouglasPeucker pts epsilon = Returns r ->
  ((length pts < 3)%nat ->
   Store.ramerDouglasPeucker a epsilon h = Returns (a, h)) /\
  ((3 <= length pts)%nat ->
   exists h',
     Store.ramerDouglasPeucker a epsilon h = Returns (length h', h' ++ [r]) /\
     extends h h' /\ (length h <= length h')%nat).
Proof.
  intros Ha H. unfold Store.ramerDouglasPeucker. rewrite (run_lengthA h a pts Ha).
  split; intros Hlen.
  - now apply Store_rdp_short with pts.
  - destruct (Store_rdp_fresh _ h a pts epsilon r Ha H Hlen) as (h' & E & X).
    exists h'. repeat split; [assumption | assumption | now apply extends_length].
Qed.

Lemma ramerDouglasPeucker_aliasing_witness :
  Store.ramerDouglasPeucker 0%nat 5 [[pt 0 0; pt 1 1]] = Returns (0%nat, [[pt 0 0; pt 1 1]]).
Proof.
  apply (ramerDouglasPeucker_aliasing [[pt 0 0; pt 1 1]] 0%nat [pt 0 0; pt 1 1] 5
           [pt 0 0; pt 1 1]).
  - reflexivity.
  - reflexivity.
  - simpl; lia.
Defined.

(** ** The vertices of a stroke *)

(** X13: for a stroke of two points or more, the vertices counted by the
    classifier are the simplified stroke, or the simplified stroke without
    its last point, which happens only when the simplified stroke has more
    than three points; they are a subsequence of the stroke that starts with
    its first point, two at least and no more than the stroke has. *)
Theorem vertices_of_stroke (originalPoints : list Point) :
  (2 <= length originalPoints)%nat ->
  exists simplified vs,
    ramerDouglasPeucker originalPoints (epsilonOf originalPoints) = Returns simplified /\
    vertices originalPoints = Returns vs /\
    (vs = simplified \/
     ((3 < length simplified)%nat /\ vs = removelast simplified)) /\
    subseq vs originalPoints /\
    first_of vs = first_of originalPoints /\
    (2 <= length vs <= length originalPoints)%nat.
Proof.
  intros Hlen.
  destruct (ramerDouglasPeucker_returns originalPoints (epsilonOf originalPoints))
    as (r & Hr & (L & T & F & E)); [apply epsilonOf_not_negative|].
  specialize (T Hlen).
  pose proof (rdp_subseq _ _ _ _ Hr) as S.
  destruct (get_Returns r 0) as (s0 & _ & S0); [lia|].
  destruct (get_Returns r (length r - 1)) as (sl & _ & S1); [lia|].
  destruct (get_Returns originalPoints 0) as (p0 & _ & O0); [lia|].
  destruct (get_Returns originalPoints (length originalPoints - 1)) as (pl & _ & O1); [lia|].
  pose proof (mergeClosed_eq originalPoints r s0 sl p0 pl S0 S1 O0 O1) as M.
  exists r. eexists. split; [assumption|].
  split; [unfold vertices; rewrite Hr; cbn [bind]; exact M|].
  destruct (_ && (3 <? length r)%nat) eqn:C1; cbn [andb].
  - apply andb_prop in C1. destruct C1 as [_ C1]. apply Nat.ltb_lt in C1.
    destruct (PrimFloat.ltb (getDistance s0 sl) _).
    + split; [right; split; [assumption | reflexivity]|].
      split; [apply subseq_trans with r; [assumption | apply subseq_removelast]|].
      split.
      * rewrite <- F. unfold first_of.
        destruct r as [|a [|b r]]; simpl in C1; try lia. reflexivity.
      * rewrite removelast_firstn_len, length_firstn. lia.
    + split; [now left|]. repeat split; try assumption; lia.
  - split; [now left|]. repeat split; try assumption; lia.
Qed.

Lemma vertices_of_stroke_witness :
  exists simplified vs,
    ramerDouglasPeucker closedTriangle (epsilonOf closedTriangle) = Returns simplified /\
    vertices closedTriangle = Returns vs /\
    (vs = simplified \/
     ((3 < length simplified)%nat /\ vs = removelast simplified)) /\
    subseq vs closedTriangle /\
    first_of vs = first_of closedTriangle /\
    (2 <= length vs <= length closedTriangle)%nat.
Proof. apply (vertices_of_stroke closedTriangle). simpl; lia. Defined.

(** ** Kinds and payloads *)

Lemma analyzeShape_cases (originalPoints : list Point) (r : ShapeAnalysis) :
  analyzeShape originalPoints = Returns r ->
  r = mkShape unknown 0 DataNull \/
  (exists start end_,
     nth_error originalPoints 0 = Some start /\
     nth_error originalPoints (length originalPoints - 1) = Some end_ /\
     r = mkShape line (score r) (DataLine start end_)) \/
  r = mkShape rect (score r) (rectData originalPoints) \/
  r = mkShape triangle (score r) (triangleData originalPoints) \/
  r = mkShape circle (score r) (circleData originalPoints).
Proof.
  intros H.
  destruct (Nat.lt_ge_cases (length originalPoints) 10) as [Hs|Hl].
  - rewrite analyzeShape_short in H by assumption. left. congruence.
  - destruct (analyzeShape_stages originalPoints Hl)
      as (s & e & vs & H0 & H1 & _ & _ & E).
    rewrite E in H. injection H as <-. unfold classify.
    destruct (PrimFloat.ltb 0.94 _); [right; left; exists s, e; auto|].
    cbv zeta.
    destruct (PrimFloat.ltb 0.80 _); [right; right; left; reflexivity|].
    destruct (length vs =? 3)%nat; [right; right; right; left; reflexivity|].
    destruct (_ && (length vs <=? 6)%nat); [right; right; left; reflexivity|].
    destruct (_ && PrimFloat.ltb 0.6 _); [right; right; right; right; reflexivity|].
    destruct (_ && PrimFloat.ltb _ 0.65); [right; right; right; left; reflexivity|].
    now left.
Qed.

(** X14: the payload of a result goes with its kind: none for [unknown],
    the first and the last point of the stroke for a [line], the left, top,
    width and height of the bounding box for a [rect], the centre, width
    and height of the bounding box for a [triangle], and the centre of the
    bounding box with the mean radius for a [circle]. *)
Theorem analyzeShape_payload (originalPoints : list Point) (r : ShapeAnalysis) :
  analyzeShape originalPoints = Returns r ->
  match type r with
  | unknown => data r = DataNull
  | line =>
      exists start end_,
        nth_error originalPoints 0 = Some start /\
        nth_error originalPoints (length originalPoints - 1) = Some end_ /\
        data r = DataLine start end_
  | rect =>
      data r = DataRect (minX (boundingBox originalPoints)) (minY (boundingBox originalPoints))
                        (width originalPoints) (height originalPoints)
  | triangle =>
      data r = DataTriangle (centerX originalPoints) (centerY originalPoints)
                            (width originalPoints) (height originalPoints)
  | circle =>
      data r = DataCircle (centerX originalPoints) (centerY originalPoints)
                          (avgRadius originalPoints)
  end.
Proof.
  intros H. apply analyzeShape_cases in H.
  destruct H as [E|[(s & e & H0 & H1 & E)|[E|[E|E]]]]; rewrite E; cbn [type data];
    try reflexivity.
  exists s, e. auto.
Qed.

Lemma analyzeShape_payload_witness :
  match type (mkShape rect 1 (DataRect 0 0 30 20)) with
  | rect =>
      data (mkShape rect 1 (DataRect 0 0 30 20))
      = DataRect (minX (boundingBox perimeter)) (minY (boundingBox perimeter))
                 (width perimeter) (height perimeter)
  | _ => True
  end.
Proof.
  apply (analyzeShape_payload perimeter (mkShape rect 1 (DataRect 0 0 30 20))).
  vm_compute. reflexivity.
Defined.

(** ** A stroke that ends where it began *)

Lemma zero_or_nan_not_above (a q : float) :
  PrimFloat.ltb 0 a = true ->
  match Prim2SF q with S754_zero _ | S754_nan => True | _ => False end ->
  PrimFloat.ltb a q = false.
Proof.
  intros Ha Hq. destruct (PrimFloat.ltb a q) eqn:E; [|reflexivity].
  assert (H : PrimFloat.ltb 0 q = true)
    by (apply ltb_leb_trans with a; [assumption | now apply ltb_leb]).
  rewrite FloatAxioms.ltb_spec, Prim2SF_zero in H.
  destruct (Prim2SF q) as [s|s| |s m e]; try tauto; try destruct s; discriminate.
Qed.

Lemma linearity_closed (p : Point) (len : float) :
  PrimFloat.ltb 0.94 (getDistance p p / len) = false.
Proof.
  apply zero_or_nan_not_above; [reflexivity|].
  rewrite FloatAxioms.div_spec, getDistance_self_value.
  destruct (_ && _).
  - rewrite Prim2SF_zero. now destruct (Prim2SF len).
  - rewrite Prim2SF_nan. reflexivity.
Qed.

(** X15: a stroke whose last point is its first point is never classified
    as a [line], whatever lies in between: its linearity is 0 or NaN, which
    is not above 0.94. *)
Theorem closed_stroke_not_line (originalPoints : list Point) (p : Point)
    (r : ShapeAnalysis) :
  nth_error originalPoints 0 = Some p ->
  nth_error originalPoints (length originalPoints - 1) = Some p ->
  analyzeShape originalPoints = Returns r ->
  PrimFloat.ltb 0.94 (getDistance p p / getPathLength originalPoints) = false /\
  type r <> line.
Proof.
  intros H0 H1 H. split; [apply linearity_closed|].
  destruct (Nat.lt_ge_cases (length originalPoints) 10) as [Hs|Hl].
  - rewrite analyzeShape_short in H by assumption. injection H as <-. discriminate.
  - destruct (analyzeShape_stages originalPoints Hl)
      as (s & e & vs & H0' & H1' & _ & _ & E).
    assert (s = p) by congruence. assert (e = p) by congruence. subst s e.
    rewrite E in H. injection H as <-. unfold classify.
    rewrite linearity_closed. cbv zeta.
    repeat match goal with |- context [if ?c then _ else _] => destruct c end;
      discriminate.
Qed.

Lemma closed_stroke_not_line_witness :
  PrimFloat.ltb 0.94 (getDistance (pt 0 0) (pt 0 0) / getPathLength closedTriangle) = false /\
  type (mkShape triangle 0.9 (DataTriangle 20 20 40 40)) <> line.
Proof.
  apply (closed_stroke_not_line closedTriangle (pt 0 0)).
  - reflexivity.
  - reflexivity.
  - vm_compute. reflexivity.
Defined.

(** ** The later stages *)

(** X16: when neither the line test nor the fill shortcut has classified a
    stroke of at least 10 points, the number of vertices decides next: the
    result is [triangle] with score 0.9 and the centre, width and height of
    the bounding box exactly when there are 3 vertices, and [rect] with
    score 0.9 and the bounding box exactly when there are 4, 5 or 6. *)
Theorem analyzeShape_vertex_count (originalPoints vs : list Point) (lin : float) :
  (10 <= length originalPoints)%nat ->
  linearity originalPoints = Returns lin ->
  PrimFloat.ltb 0.94 lin = false ->
  PrimFloat.ltb 0.80 (fillRatio originalPoints) = false ->
  vertices originalPoints = Returns vs ->
  exists r,
    analyzeShape originalPoints = Returns r /\
    (length vs = 3%nat <->
     r = mkShape triangle 0.9 (triangleData originalPoints)) /\
    ((4 <= length vs <= 6)%nat <->
     r = mkShape rect 0.9 (rectData originalPoints)) /\
    (type r = rect <-> (4 <= length vs <= 6)%nat).
Proof.
  intros Hlen L H1 H2 V.
  destruct (analyzeShape_stages originalPoints Hlen)
    as (s & e & vs' & _ & _ & L' & V' & E).
  assert (vs' = vs) by congruence. subst vs'.
  rewrite L in L'. injection L' as L'. subst lin.
  eexists. split; [exact E|]. unfold classify. rewrite H1. cbv zeta. rewrite H2.
  destruct (Nat.eqb_spec (length vs) 3) as [E3|E3].
  - rewrite E3. cbn [type]. repeat split; try reflexivity; try discriminate; lia.
  - destruct (Nat.leb_spec 4 (length vs)); destruct (Nat.leb_spec (length vs) 6);
      cbn [andb];
      try (cbn [type]; repeat split; try reflexivity; try discriminate; lia);
      repeat match goal with |- context [if ?c then _ else _] => destruct c end;
      cbn [type]; repeat split; try discriminate; try lia; try congruence.
Qed.

Lemma analyzeShape_vertex_count_witness :
  exists r,
    analyzeShape diamond = Returns r /\
    (length [pt 50 0; pt 100 50; pt 50 100; pt 0 50] = 3%nat <->
     r = mkShape triangle 0.9 (triangleData diamond)) /\
    ((4 <= length [pt 50 0; pt 100 50; pt 50 100; pt 0 50] <= 6)%nat <->
     r = mkShape rect 0.9 (rectData diamond)) /\
    (type r = rect <-> (4 <= length [pt 50 0; pt 100 50; pt 50 100; pt 0 50] <= 6)%nat).
Proof.
  apply (analyzeShape_vertex_count diamond [pt 50 0; pt 100 50; pt 50 100; pt 0 50] 0).
  - simpl; lia.
  - vm_compute. reflexivity.
  - reflexivity.
  - vm_compute. reflexivity.
  - vm_compute. reflexivity.
Defined.

(** X17: when no earlier stage has classified a stroke of at least 10
    points (no line, no fill above 0.80, a vertex count outside 3..6, no
    circle), the result is [triangle] with score 0.7 and the centre, width
    and height of the bounding box exactly when the fill ratio lies strictly
    between 0.35 and 0.65, and [unknown] with score 0 and no payload
    otherwise. *)
Theorem analyzeShape_fallback (originalPoints vs : list Point) (lin : float) :
  (10 <= length originalPoints)%nat ->
  linearity originalPoints = Returns lin ->
  PrimFloat.ltb 0.94 lin = false ->
  PrimFloat.ltb 0.80 (fillRatio originalPoints) = false ->
  vertices originalPoints = Returns vs ->
  (length vs < 3 \/ 6 < length vs)%nat ->
  PrimFloat.ltb (normalizedVariance originalPoints) 0.05
  && PrimFloat.ltb 0.6 (fillRatio originalPoints) = false ->
  analyzeShape originalPoints
  = Returns (if PrimFloat.ltb 0.35 (fillRatio originalPoints)
                && PrimFloat.ltb (fillRatio originalPoints) 0.65
             then mkShape triangle 0.7 (triangleData originalPoints)
             else mkShape unknown 0 DataNull).
Proof.
  intros Hlen L H1 H2 V Hv Hc.
  destruct (analyzeShape_stages originalPoints Hlen)
    as (s & e & vs' & _ & _ & L' & V' & E).
  assert (vs' = vs) by congruence. subst vs'.
  rewrite L in L'. injection L' as L'. subst lin.
  rewrite E. unfold classify. rewrite H1. cbv zeta. rewrite H2, Hc.
  destruct (Nat.eqb_spec (length vs) 3) as [E3|E3]; [lia|].
  destruct (Nat.leb_spec 4 (length vs)); destruct (Nat.leb_spec (length vs) 6);
    cbn [andb]; try lia; reflexivity.
Qed.

Lemma analyzeShape_fallback_witness :
  analyzeShape zigzag
  = Returns (if PrimFloat.ltb 0.35 (fillRatio zigzag) && PrimFloat.ltb (fillRatio zigzag) 0.65
             then mkShape triangle 0.7 (triangleData zigzag)
             else mkShape unknown 0 DataNull).
Proof.
  assert (V : exists vs, vertices zigzag = Returns vs /\ (6 < length vs)%nat).
  { eexists. split; [vm_compute; reflexivity | simpl; lia]. }
  destruct V as (vs & V & Hv).
  apply (analyzeShape_fallback zigzag vs (getDistance (pt 97 98) (pt 87 27) / getPathLength zigzag)).
  - simpl; lia.
  - reflexivity.
  - vm_compute. reflexivity.
  - vm_compute. reflexivity.
  - exact V.
  - right. exact Hv.
  - vm_compute. reflexivity.
Defined.

(** * The caller: the [path:created] handler *)

(** ** The points of a path *)

Lemma command_point (a : list float) :
  (if (3 <=? S (length a))%nat
   then [mkPoint (toNumber (nth_error a (S (length a) - 2 - 1)))
                 (toNumber (nth_error a (S (length a) - 1 - 1)))]
   else [])
  = match rev a with
    | y :: x :: _ => [mkPoint x y]
    | _ => []
    end.
Proof.
  destruct a as [|y a] using rev_ind; [reflexivity|].
  destruct a as [|x a _] using rev_ind; [reflexivity|].
  rewrite !rev_app_distr, !length_app. cbn [rev app length].
  destruct (Nat.leb_spec 3 (S (length a + 1 + 1))); [|lia].
  replace (S (length a + 1 + 1) - 2 - 1)%nat with (length a) by lia.
  replace (S (length a + 1 + 1) - 1 - 1)%nat with (length a + 1)%nat by lia.
  rewrite (nth_error_app1 (a ++ [x]) [y]) by (rewrite length_app; simpl; lia).
  rewrite (nth_error_app2 a [x]) by lia.
  rewrite (nth_error_app2 (a ++ [x]) [y]) by (rewrite length_app; simpl; lia).
  rewrite length_app. cbn [length].
  rewrite !Nat.sub_diag. reflexivity.
Qed.

Lemma pathPoints_fold (cmds : list PathCommand) :
  forall points,
    fold_left
      (fun points cmd =>
         if (3 <=? commandLength cmd)%nat
         then points ++ [mkPoint (toNumber (commandAt cmd (commandLength cmd - 2)))
                                 (toNumber (commandAt cmd (commandLength cmd - 1)))]
         else points)
      cmds points
    = points ++ flat_map (fun cmd => match rev (args cmd) with
                                     | y :: x :: _ => [mkPoint x y]
                                     | _ => []
                                     end) cmds.
Proof.
  induction cmds as [|cmd cmds IH]; intros points; cbn [fold_left flat_map].
  - now rewrite app_nil_r.
  - rewrite IH, <- command_point. unfold commandAt, commandLength.
    destruct (3 <=? S (length (args cmd)))%nat; [|rewrite app_nil_l; reflexivity].
    now rewrite <- app_assoc.
Qed.

Lemma pathPoints_length (path : option (list PathCommand)) :
  (length (pathPoints path)
   <= match path with None => 0 | Some cmds => length cmds end)%nat.
Proof.
  destruct path as [cmds|]; [|simpl; lia].
  unfold pathPoints. rewrite pathPoints_fold, app_nil_l.
  induction cmds as [|cmd cmds IH]; [simpl; lia|].
  cbn [flat_map]. rewrite length_app. cbn [length].
  destruct (rev (args cmd)) as [|y [|x l]]; simpl; lia.
Qed.

(** X18: the points handed to the classifier are, in the order of the
    path, the last two numbers of every command that carries two numbers or
    more (the end point of a curve, not its control point); a command with
    fewer numbers gives no point, and a path without a command list gives
    none at all. *)
Theorem pathPoints_last_two (cmds : list PathCommand) :
  pathPoints None = [] /\
  pathPoints (Some cmds)
  = flat_map (fun cmd => match rev (args cmd) with
                         | y :: x :: _ => [mkPoint x y]
                         | _ => []
                         end) cmds /\
  (length (pathPoints (Some cmds)) <= length cmds)%nat.
Proof.
  split; [reflexivity|]. split.
  - unfold pathPoints. now rewrite pathPoints_fold.
  - apply (pathPoints_length (Some cmds)).
Qed.

(** ** What the handler does to the canvas *)


(** X20: a path of fewer than 10 commands, or without a command list, is
    left on the canvas as it was drawn: the handler makes no call on the
    canvas. *)
Theorem pathCreated_short_path (activeColor : String.string) (activeWidth : float)
    (path : option (list PathCommand)) :
  (match path with None => 0 | Some cmds => length cmds end < 10)%nat ->
  pathCreated activeColor activeWidth path = ([], Returns tt).
Proof.
  intros H. pose proof (pathPoints_length path) as L.
  unfold pathCreated. cbv zeta.
  rewrite analyzeShape_short by lia. reflexivity.
Qed.

Lemma pathCreated_short_path_witness :
  pathCreated "#ffffff"%string 3
    (Some [mkCommand "M"%string [0; 0]; mkCommand "L"%string [10; 10]])
  = ([], Returns tt).
Proof.
  apply (pathCreated_short_path "#ffffff"%string 3
           (Some [mkCommand "M"%string [0; 0]; mkCommand "L"%string [10; 10]])).
  simpl; lia.
Defined.
